(** * Timing alignment and audio reconstruction of the video dubbing pipeline

    A shallow embedding of the timing core of
    [video_translation_pipeline.py] and [video_processor.py]:
    the window extraction, the per-window aligner, the duration fitter,
    the track assembler, the window controller and the final bed mix.

    Conventions of the embedding.
    - A pydub [AudioSegment] is a list of frames, one frame per
      millisecond; the value of a frame is its amplitude and [0] is a
      silent frame.  [len] counts the frames, so the length after [++]
      is the sum of the lengths.  pydub keeps the frames at the sample
      rate of the segment, reports [len] rounded to the millisecond and
      makes [AudioSegment.silent] at 11025 Hz, to be resampled when it
      is appended: the length it reports after silence has been appended
      can be a millisecond away from the sum.  The statements on pads
      and pauses therefore say what is appended, and for which duration
      silence is asked, and bound lengths from above only.
    - Timestamps in seconds are rationals.  Python compares floats by
      value, which is the order of [Q]; [int(x * 1000)] is the
      truncation [py_int (x * 1000)], the rounding of the float product
      and of float differences being left out.  The statements use
      [to_ms] as a name for what the code computes, through its sign and
      its order.
    - Texts are ASCII strings; [strip] removes the ASCII white space.
    - The collaborators (translator, synthesizer, energy analysis, gain
      and overlay of pydub, ffmpeg) are variables of the sections that
      use them. *)

From Stdlib Require Import String Ascii.
From Stdlib Require Import ZArith QArith Qround List Bool Lia.
Import ListNotations.

Local Open Scope Z_scope.

(** ** Audio segments *)

Definition Audio := list Z.

(** [len(seg)]: the duration in milliseconds, as the number of frames
    of the model. *)
Definition len (a : Audio) : Z := Z.of_nat (length a).

(** [AudioSegment.silent(duration=d)]: silence asked for [d]
    milliseconds; a non-positive duration gives the empty segment. *)
Definition silent (duration : Z) : Audio := repeat 0 (Z.to_nat duration).

(** [seg[s:e]] for positions [0 <= s] and [0 <= e]: both ends are
    clamped to the length, and an inverted range is empty.  (pydub counts
    a negative position from the end of the segment; the pipeline passes
    none, and the properties below about slices assume none.) *)
Definition slice (a : Audio) (s e : Z) : Audio :=
  let s' := Z.min s (len a) in
  let e' := Z.min e (len a) in
  firstn (Z.to_nat (e' - s')) (skipn (Z.to_nat s') a).

(** [seg[:e]] and [seg[s:]]. *)
Definition slice_to (a : Audio) (e : Z) : Audio := slice a 0 e.
Definition slice_from (a : Audio) (s : Z) : Audio := slice a s (len a).


(** ** Timestamps *)

(** Python's [int(x)] on a number: truncation towards zero. *)
Definition py_int (x : Q) : Z :=
  if Qle_bool 0 x then Qfloor x else Qceiling x.

(** [int(t * 1000)]: seconds to milliseconds. *)
Definition to_ms (t : Q) : Z := py_int (t * 1000).

(** The comparison [x < y] of two numbers. *)
Definition Qltb (x y : Q) : bool := negb (Qle_bool y x).

(** ** Extraction of a window from the source track *)

(** [_extract_audio_segment(audio_path, start_time, end_time, output_path)].
    The source file is [None] when it does not exist; the result is the
    segment written to [output_path], or [None] when the function returns
    [False] and writes nothing. *)
Definition _extract_audio_segment
    (source : option Audio) (start_time end_time : Q) : option Audio :=
  match source with
  | None => None
  | Some audio =>
      if len audio =? 0 then None
      else
        let start_ms := to_ms start_time in
        let end_ms := to_ms end_time in
        if start_ms >=? len audio then None
        else
          let end_ms := if end_ms >? len audio then len audio else end_ms in
          let segment := slice audio start_ms end_ms in
          if len segment =? 0 then None else Some segment
  end.

(** ** Utterances and their text *)

(** One Whisper segment: [{"start": .., "end": .., "text": ..}], in seconds
    of the whole recording. *)
Record Segment := {
  seg_start : Q;
  seg_end : Q;
  seg_text : string
}.

(** The characters [str.strip()] and the regular expression class [\s]
    remove, within ASCII. *)
Definition is_space (c : ascii) : bool :=
  let n := nat_of_ascii c in
  ((9 <=? n) && (n <=? 13) || (28 <=? n) && (n <=? 32))%nat.

Fixpoint lstrip (s : string) : string :=
  match s with
  | EmptyString => EmptyString
  | String c s' => if is_space c then lstrip s' else s
  end.

Fixpoint rstrip (s : string) : string :=
  match s with
  | EmptyString => EmptyString
  | String c s' =>
      match rstrip s' with
      | EmptyString => if is_space c then EmptyString else String c EmptyString
      | r => String c r
      end
  end.

(** [text.strip()] *)
Definition strip (s : string) : string := rstrip (lstrip s).

(** [not text]: the empty string is false in a condition. *)
Definition is_empty (s : string) : bool :=
  match s with EmptyString => true | _ => false end.

(** [bool(re.search(r"[\.\!\?…:]\s*$", text_en))]: after the trailing
    white space the text ends in one of [. ! ? :] or in the ellipsis
    character, whose UTF-8 encoding is the three bytes 226, 128, 166. *)
Definition ends_terminal (text_en : string) : bool :=
  match rev (list_ascii_of_string (rstrip text_en)) with
  | [] => false
  | c :: before =>
      if (Ascii.eqb c "." || Ascii.eqb c "!" || Ascii.eqb c "?"
          || Ascii.eqb c ":")%char
      then true
      else
        match before with
        | b2 :: b1 :: _ =>
            (nat_of_ascii c =? 166)%nat && (nat_of_ascii b2 =? 128)%nat
            && (nat_of_ascii b1 =? 226)%nat
        | _ => false
        end
  end.

(** ** The aligner loops *)

(** What [synthesize_with_voice] followed by [AudioSegment.from_wav]
    yields for one utterance: no result path, a file that cannot be read
    (the exception is caught and the utterance skipped), or the clip. *)
Inductive SynthResult :=
| NoResult
| Unreadable
| Clip (seg_audio : Audio).

(** One entry of the placement plan: where the clip of an utterance
    begins on the output track, and the clip.  The plan is not a variable
    of the source; it records each [combined += seg_audio]. *)
Record Placement := {
  onset : Z;
  clip : Audio
}.

(** The local variables of an aligner loop.  [prev_en_terminal] is [None]
    until the loop assigns it, [locals().get("prev_en_terminal", True)]
    is [prev_terminal_or_true]. *)
Record LoopState := {
  combined : Audio;
  current_ms : Z;
  prev_en_terminal : option bool;
  plan : list Placement
}.

Definition initial_state : LoopState :=
  {| combined := silent 0; current_ms := 0;
     prev_en_terminal := None; plan := [] |}.

Definition prev_terminal_or_true (st : LoopState) : bool :=
  match prev_en_terminal st with
  | Some b => b
  | None => true
  end.

(** [combined += AudioSegment.silent(duration=d)] *)
Definition add_silence (d : Z) (st : LoopState) : LoopState :=
  {| combined := combined st ++ silent d;
     current_ms := current_ms st;
     prev_en_terminal := prev_en_terminal st;
     plan := plan st |}.

(** [combined += seg_audio] *)
Definition add_clip (seg_audio : Audio) (st : LoopState) : LoopState :=
  {| combined := combined st ++ seg_audio;
     current_ms := current_ms st;
     prev_en_terminal := prev_en_terminal st;
     plan := plan st ++
             [{| onset := len (combined st); clip := seg_audio |}] |}.

Definition set_current_ms (ms : Z) (st : LoopState) : LoopState :=
  {| combined := combined st;
     current_ms := ms;
     prev_en_terminal := prev_en_terminal st;
     plan := plan st |}.

Definition set_prev_en_terminal (b : bool) (st : LoopState) : LoopState :=
  {| combined := combined st;
     current_ms := current_ms st;
     prev_en_terminal := Some b;
     plan := plan st |}.

(** [for idx, seg in enumerate(segments)]: the body receives the index,
    the segment, and [segments[idx + 1]] when there is one. *)
Fixpoint for_enumerate
    (body : nat -> Segment -> option Segment -> LoopState -> LoopState)
    (idx : nat) (segments : list Segment) (st : LoopState) : LoopState :=
  match segments with
  | [] => st
  | seg :: rest =>
      for_enumerate body (S idx) rest (body idx seg (hd_error rest) st)
  end.

(** The state of a loop when it reaches the utterances [following], after
    the utterances [before] them. *)
Fixpoint for_enumerate_prefix
    (body : nat -> Segment -> option Segment -> LoopState -> LoopState)
    (idx : nat) (before following : list Segment) (st : LoopState)
    : LoopState :=
  match before with
  | [] => st
  | seg :: rest =>
      for_enumerate_prefix body (S idx) rest following
        (body idx seg (hd_error (rest ++ following)) st)
  end.

Definition MAX_GAP_MS : Z := 400.
Definition CONTINUATION_PAUSE_MS : Z := 120.
Definition MAX_PAUSE_MS : Z := 2000.

(** ** The duration fitter *)

Section DurationFitter.

(** [energy_smooth < threshold]: for each sample of the clip, whether
    its smoothed energy is under 15% of the peak.  The analysis is
    floating-point numpy code; the fitter only reads its outcome. *)
Variable quiet_regions : Audio -> list bool.

Record QuietScan := {
  quiet_starts : list Z;
  quiet_ends : list Z;
  in_quiet : bool
}.

(** [for i, is_quiet in enumerate(quiet_regions)]: the boundaries of
    the quiet runs. *)
Fixpoint scan_quiet (i : Z) (flags : list bool) (sc : QuietScan)
    : QuietScan :=
  match flags with
  | [] => sc
  | is_quiet :: rest =>
      scan_quiet (i + 1) rest
        (if is_quiet && negb (in_quiet sc) then
           {| quiet_starts := quiet_starts sc ++ [i];
              quiet_ends := quiet_ends sc;
              in_quiet := true |}
         else if negb is_quiet && in_quiet sc then
           {| quiet_starts := quiet_starts sc;
              quiet_ends := quiet_ends sc ++ [i];
              in_quiet := false |}
         else sc)
  end.

Definition find_quiet (flags : list bool) : list Z * list Z :=
  let sc := scan_quiet 0 flags
              {| quiet_starts := []; quiet_ends := []; in_quiet := false |} in
  let ends :=
    if in_quiet sc then quiet_ends sc ++ [Z.of_nat (length flags)]
    else quiet_ends sc in
  (quiet_starts sc, ends).

(** [for start, end in zip(quiet_starts, quiet_ends)]: copy the audio up
    to each quiet run and replace the run by a widened pause. *)
Fixpoint widen_pauses (audio : Audio) (avg_pause_length : Z)
    (regions : list (Z * Z)) (new_audio : Audio) (last_end : Z)
    : Audio * Z :=
  match regions with
  | [] => (new_audio, last_end)
  | (start, end_) :: rest =>
      let new_audio :=
        if start >? last_end then new_audio ++ slice audio last_end start
        else new_audio in
      let pause_duration := Z.min (end_ - start + avg_pause_length) 200 in
      widen_pauses audio avg_pause_length rest
        (new_audio ++ silent pause_duration) end_
  end.

(** [_add_pauses_between_words(input_wav, target_duration, output_wav)];
    the result is the audio written to [output_wav]. *)
Definition _add_pauses_between_words (audio : Audio) (target_duration : Z)
    : option Audio :=
  let current_duration := len audio in
  let additional_time := target_duration - current_duration in
  if additional_time <? 50 then Some audio
  else
    let '(starts, ends) := find_quiet (quiet_regions audio) in
    match starts, ends with
    | _ :: _, _ :: _ =>
        let avg_pause_length := additional_time / Z.of_nat (length starts) in
        let avg_pause_length := Z.max 30 (Z.min avg_pause_length 150) in
        let '(new_audio, last_end) :=
          widen_pauses audio avg_pause_length (List.combine starts ends)
            (silent 0) 0 in
        let new_audio :=
          if last_end <? len audio
          then new_audio ++ slice_from audio last_end
          else new_audio in
        let new_audio :=
          if len new_audio <? target_duration
          then new_audio ++ silent (target_duration - len new_audio)
          else new_audio in
        Some new_audio
    | _, _ =>
        let final_pause := target_duration - current_duration in
        Some (audio ++ silent final_pause)
    end.

(** [_stretch_wav_to_duration(input_wav, target_ms, output_wav)]; [None]
    is the return value [False], with nothing written. *)
Definition _stretch_wav_to_duration (seg : Audio) (target_ms : Z)
    : option Audio :=
  let cur_ms := len seg in
  if cur_ms =? 0 then None
  else if Z.abs (cur_ms - target_ms) <=? 40 then Some seg
  else if cur_ms <? target_ms then _add_pauses_between_words seg target_ms
  else Some seg.

End DurationFitter.

Section Aligner.

(** [_translate_text_ru_en]: the English text, or the empty string on
    failure. *)
Variable _translate_text_ru_en : string -> string.

(** [voice_converter.synthesize_with_voice] for the utterance at an
    index of the loop, read back with [AudioSegment.from_wav]. *)
Variable synthesize_with_voice : nat -> string -> SynthResult.

Variable quiet_regions : Audio -> list bool.

(** The placement of a clip that is longer than its utterance, as the
    window aligners do it: both branches append the whole clip. *)
Definition place_longer (seg_audio : Audio) (ru_duration end_ms : Z)
    (next_start_ms : option Z) (st : LoopState) : LoopState :=
  let en_duration := len seg_audio in
  let available_gap :=
    match next_start_ms with
    | Some next => Z.max 0 (next - end_ms)
    | None => 0
    end in
  let allowed_ms := ru_duration + Z.min available_gap MAX_GAP_MS in
  if en_duration <=? allowed_ms then
    set_current_ms (current_ms st + en_duration) (add_clip seg_audio st)
  else
    set_current_ms (current_ms st + en_duration) (add_clip seg_audio st).

(** The body of the loop of [_process_segment_with_correct_timing]
    (global timestamps, cursor starting at [0]). *)
Definition correct_timing_body (idx : nat) (seg : Segment)
    (next : option Segment) (st : LoopState) : LoopState :=
  let start_ms := to_ms (seg_start seg) in
  let end_ms := to_ms (seg_end seg) in
  let next_start_ms := option_map (fun s => to_ms (seg_start s)) next in
  let text_ru := strip (seg_text seg) in
  if (end_ms <=? start_ms) || is_empty text_ru then st
  else
    let text_en := _translate_text_ru_en text_ru in
    if is_empty text_en then
      let silence_duration := end_ms - start_ms in
      set_current_ms end_ms (add_silence silence_duration st)
    else
      match synthesize_with_voice idx text_en with
      | NoResult =>
          let silence_duration := end_ms - start_ms in
          set_current_ms end_ms (add_silence silence_duration st)
      | Unreadable => st
      | Clip seg_audio =>
          let en_duration := len seg_audio in
          let ru_duration := end_ms - start_ms in
          let st :=
            if en_duration <=? ru_duration then
              let actual_start := start_ms in
              let actual_end := actual_start + en_duration in
              let st :=
                if actual_start >? current_ms st
                then add_silence (actual_start - current_ms st) st
                else st in
              set_current_ms actual_end (add_clip seg_audio st)
            else
              place_longer seg_audio ru_duration end_ms next_start_ms st in
          set_prev_en_terminal (ends_terminal text_en) st
      end.

(** The pause before an utterance in the two loops that bound it:
    [gap = start_ms - current_ms], at most [CONTINUATION_PAUSE_MS] after
    an unfinished sentence, at most [MAX_PAUSE_MS] always. *)
Definition pause_before (start_ms : Z) (st : LoopState) : Z :=
  let gap := start_ms - current_ms st in
  let gap :=
    if negb (prev_terminal_or_true st)
    then Z.min gap CONTINUATION_PAUSE_MS else gap in
  Z.min gap MAX_PAUSE_MS.

Definition insert_pause (start_ms : Z) (st : LoopState) : LoopState :=
  if start_ms >? current_ms st then
    let gap := pause_before start_ms st in
    set_current_ms (current_ms st + gap) (add_silence gap st)
  else st.

(** The body of the loop of [_process_segment_with_full_functionality]
    (timestamps of the window shifted by [time_offset]). *)
Definition full_functionality_body (time_offset : Q) (idx : nat)
    (seg : Segment) (next : option Segment) (st : LoopState) : LoopState :=
  let start_ms := to_ms (seg_start seg + time_offset) in
  let end_ms := to_ms (seg_end seg + time_offset) in
  let next_start_ms :=
    option_map (fun s => to_ms (seg_start s + time_offset)) next in
  let text_ru := strip (seg_text seg) in
  if (end_ms <=? start_ms) || is_empty text_ru then st
  else
    let st := insert_pause start_ms st in
    let text_en := _translate_text_ru_en text_ru in
    if is_empty text_en then st
    else
      match synthesize_with_voice idx text_en with
      | NoResult => st
      | Unreadable => st
      | Clip seg_audio =>
          let en_duration := len seg_audio in
          let ru_duration := end_ms - start_ms in
          let st :=
            if en_duration <=? ru_duration then
              set_current_ms (current_ms st + en_duration)
                (add_clip seg_audio st)
            else
              place_longer seg_audio ru_duration end_ms next_start_ms st in
          set_prev_en_terminal (ends_terminal text_en) st
      end.

(** The body of the loop of [translate_video_with_voice_preservation]
    (short recordings, no window). *)
Definition voice_preservation_body (idx : nat) (seg : Segment)
    (next : option Segment) (st : LoopState) : LoopState :=
  let start_ms := to_ms (seg_start seg) in
  let end_ms := to_ms (seg_end seg) in
  let next_start_ms := option_map (fun s => to_ms (seg_start s)) next in
  let text_ru := strip (seg_text seg) in
  if (end_ms <=? start_ms) || is_empty text_ru then st
  else
    let st := insert_pause start_ms st in
    let text_en := _translate_text_ru_en text_ru in
    if is_empty text_en then st
    else
      match synthesize_with_voice idx text_en with
      | NoResult => st
      | Unreadable => st
      | Clip seg_audio =>
          let en_duration := len seg_audio in
          let ru_duration := end_ms - start_ms in
          let st :=
            if en_duration <=? ru_duration then
              set_current_ms (current_ms st + en_duration)
                (add_clip seg_audio st)
            else
              let available_gap :=
                match next_start_ms with
                | Some next => Z.max 0 (next - end_ms)
                | None => 0
                end in
              let allowed_ms := ru_duration + available_gap in
              if en_duration <=? allowed_ms then
                set_current_ms (current_ms st + en_duration)
                  (add_clip seg_audio st)
              else
                match _stretch_wav_to_duration quiet_regions
                        seg_audio allowed_ms with
                | Some seg_audio_fit =>
                    set_current_ms (current_ms st + allowed_ms)
                      (add_clip seg_audio_fit st)
                | None =>
                    set_current_ms (start_ms + en_duration)
                      (add_clip seg_audio st)
                end in
          set_prev_en_terminal (ends_terminal text_en) st
      end.

(** The window filter of [_process_segment_with_correct_timing]:
    [seg_start < end_time and seg_end > start_time]. *)
Definition in_window (start_time end_time : Q) (seg : Segment) : bool :=
  Qltb (seg_start seg) end_time && Qltb start_time (seg_end seg).

Definition relevant_segments (all_segments : list Segment)
    (start_time end_time : Q) : list Segment :=
  filter (in_window start_time end_time) all_segments.

(** The state of the loop of the window processor when it ends. *)
Definition correct_timing_loop (relevant : list Segment) : LoopState :=
  for_enumerate correct_timing_body 0 relevant initial_state.

(** [_process_segment_with_correct_timing]: the pure TTS track written
    to [output_path], or [None] for the return value [False]. *)
Definition _process_segment_with_correct_timing
    (all_segments : list Segment) (start_time end_time : Q)
    : option Audio :=
  match relevant_segments all_segments start_time end_time with
  | [] => Some (silent (py_int ((end_time - start_time) * 1000)))
  | relevant =>
      let st := correct_timing_loop relevant in
      if len (combined st) =? 0 then None else Some (combined st)
  end.

Definition full_functionality_loop (time_offset : Q)
    (segments : list Segment) : LoopState :=
  for_enumerate (full_functionality_body time_offset) 0 segments
    initial_state.

Definition voice_preservation_loop (segments : list Segment) : LoopState :=
  for_enumerate voice_preservation_body 0 segments initial_state.

End Aligner.

(** ** The track assembler *)

(** The part of [analyze_audio_prosody]'s result the assembler reads:
    the duration in seconds and the speech intervals in milliseconds. *)
Record ProsodyInfo := {
  duration : Q;
  nonsilent_ranges : list (Z * Z)
}.

(** The sum of the pauses longer than 50 ms between consecutive speech
    intervals. *)
Fixpoint total_pause_time (ranges : list (Z * Z)) : Z :=
  match ranges with
  | (_, pause_start) :: ((pause_end, _) :: _) as rest =>
      let pause_duration := pause_end - pause_start in
      (if pause_duration >? 50 then pause_duration else 0)
      + total_pause_time rest
  | _ => 0
  end.

(** Step 1: the leading silence before the first speech interval; step 2:
    one trailing pause of the average length. *)
Definition apply_pauses (ranges : list (Z * Z)) (synthesized_audio : Audio)
    : Audio :=
  match ranges with
  | [] => synthesized_audio
  | (first_start, _) :: _ =>
      let synthesized_audio :=
        if first_start >? 50 then silent first_start ++ synthesized_audio
        else synthesized_audio in
      if (1 <? Z.of_nat (length ranges)) && (0 <? total_pause_time ranges)
      then
        let avg_pause :=
          total_pause_time ranges / Z.max 1 (Z.of_nat (length ranges) - 1) in
        synthesized_audio ++ silent avg_pause
      else synthesized_audio
  end.

(** The last step: bring the track to the length [original_ms], by
    padding with silence or by cutting. *)
Definition force_duration (original_ms : Z) (synthesized_audio : Audio)
    : Audio :=
  if 0 <? original_ms then
    let cur_ms := len synthesized_audio in
    if cur_ms <? original_ms then
      let pad := original_ms - cur_ms in
      synthesized_audio ++ silent pad
    else if cur_ms >? original_ms + 50 then
      slice_to synthesized_audio original_ms
    else synthesized_audio
  else synthesized_audio.

(** The target length: the probed duration of the video when there is
    one, else the duration of the analysed track. *)
Definition target_ms (info : ProsodyInfo) (probed_ms : option Z) : Z :=
  let original_ms := py_int (duration info * 1000) in
  match probed_ms with
  | Some p => if p =? 0 then original_ms else p
  | None => original_ms
  end.

(** [_apply_prosody_to_audio]; [prosody_info] is [None] for the empty
    dictionary, [probed_ms] is what [_probe_video_duration_ms] returns
    ([None] also when no [video_path] is given). *)
Definition _apply_prosody_to_audio (synthesized_audio : Audio)
    (prosody_info : option ProsodyInfo) (probed_ms : option Z) : Audio :=
  match prosody_info with
  | None => synthesized_audio
  | Some info =>
      force_duration (target_ms info probed_ms)
        (apply_pauses (nonsilent_ranges info) synthesized_audio)
  end.

(** ** The window controller *)

(** [_combine_segments_simple]: the concatenation of the window files. *)
Definition _combine_segments_simple (segment_files : list Audio)
    : option Audio :=
  let combined :=
    fold_left (fun combined segment => combined ++ segment)
      segment_files (silent 0) in
  if len combined =? 0 then None else Some combined.

(** What a run does, in the order it does it. *)
Inductive Event :=
| EvExtractWindow (i : nat) (ok : bool)
| EvProcessWindow (i : nat) (ok : bool)
| EvCombine (ok : bool)
| EvProsody
| EvBedMix (bed_gain_db : Z)
| EvSync (ok : bool).

(** The outcome of a run: its events, the audio handed to the final
    video when the run got that far, and the return value. *)
Record Run := {
  trace : list Event;
  final_audio : option Audio;
  success : bool
}.

(** [min(a, b)] of Python: the first argument unless the second is
    smaller. *)
Definition py_min (a b : Q) : Q := if Qltb b a then b else a.

(** The bands that choose the window length in seconds. *)
Definition choose_segment_duration (total_duration : Q) : Z :=
  let total_minutes := (total_duration / 60)%Q in
  if Qle_bool total_minutes 10 then 30
  else if Qle_bool total_minutes 30 then 45
  else if Qle_bool total_minutes 60 then 60
  else 90.

(** The original track brought to the length of the translated one. *)
Definition match_length (orig_seg tts_seg : Audio) : Audio :=
  if len orig_seg <? len tts_seg then
    orig_seg ++ silent (len tts_seg - len orig_seg)
  else if len orig_seg >? len tts_seg then
    slice_to orig_seg (len tts_seg)
  else orig_seg.

(** The gain of the bed, in dB. *)
Definition bed_gain_db : Z := -24.

Section Controller.

Variable _translate_text_ru_en : string -> string.

(** The synthesizer, per window and per index in the window. *)
Variable synthesize_with_voice : nat -> nat -> string -> SynthResult.

(** [seg + gain_db] and [bed.overlay(tts_seg)] of pydub. *)
Variable apply_gain : Z -> Audio -> Audio.
Variable overlay : Audio -> Audio -> Audio.

(** What the collaborators of one run return. *)
Record RunInput := {
  extracted_audio : option Audio;
  prosody : option ProsodyInfo;
  whisper_segments : list Segment;
  fallback_text : string;
  probed_video_ms : option Z;
  sync_ok : bool
}.

Definition window_start (segment_duration : Z) (i : nat) : Q :=
  inject_Z (Z.of_nat i * segment_duration).

Definition window_end (segment_duration : Z) (total_duration : Q)
    (i : nat) : Q :=
  py_min (inject_Z ((Z.of_nat i + 1) * segment_duration)) total_duration.

(** One window: extraction, then alignment.  [None] when the window is
    skipped, with the events of the attempt. *)
Definition process_window (audio : Audio) (segments : list Segment)
    (segment_duration : Z) (total_duration : Q) (i : nat)
    : option Audio * list Event :=
  let start_time := window_start segment_duration i in
  let end_time := window_end segment_duration total_duration i in
  match _extract_audio_segment (Some audio) start_time end_time with
  | None => (None, [EvExtractWindow i false])
  | Some _ =>
      match _process_segment_with_correct_timing _translate_text_ru_en
              (synthesize_with_voice i) segments start_time end_time with
      | Some out =>
          (Some out, [EvExtractWindow i true; EvProcessWindow i true])
      | None => (None, [EvExtractWindow i true; EvProcessWindow i false])
      end
  end.

(** [for i in range(estimated_segments)], with its [break]. *)
Fixpoint window_loop (audio : Audio) (segments : list Segment)
    (segment_duration : Z) (total_duration : Q) (indices : list nat)
    (segment_files : list Audio) (events : list Event)
    : list Audio * list Event :=
  match indices with
  | [] => (segment_files, events)
  | i :: rest =>
      if Qle_bool total_duration (window_start segment_duration i)
      then (segment_files, events)
      else
        let '(out, evs) :=
          process_window audio segments segment_duration total_duration i in
        window_loop audio segments segment_duration total_duration rest
          (match out with
           | Some file => segment_files ++ [file]
           | None => segment_files
           end)
          (events ++ evs)
  end.

(** The segments of the whole recording: Whisper's, or the whole text
    as one utterance. *)
Definition all_segments (inp : RunInput) : list Segment :=
  match whisper_segments inp with
  | [] =>
      if is_empty (fallback_text inp) then []
      else
        [{| seg_start := 0;
            seg_end := match prosody inp with
                       | Some info => duration info
                       | None => 0
                       end;
            seg_text := fallback_text inp |}]
  | segments => segments
  end.

Definition total_duration_of (inp : RunInput) : Q :=
  match prosody inp with
  | Some info => duration info
  | None => 0
  end.

Definition estimated_segments (total_duration : Q) : nat :=
  Z.to_nat
    (py_int (total_duration / inject_Z (choose_segment_duration total_duration))
     + 1).

(** The windows of a run and what the loop collects from them. *)
Definition run_windows (inp : RunInput) (audio : Audio)
    : list Audio * list Event :=
  let total_duration := total_duration_of inp in
  window_loop audio (all_segments inp)
    (choose_segment_duration total_duration) total_duration
    (seq 0 (estimated_segments total_duration)) [] [].

(** Step 9: the quiet bed of the original under the translated track. *)
Definition bed_mix (orig_seg tts_seg : Audio) : Audio :=
  let orig_seg := match_length orig_seg tts_seg in
  let bed := apply_gain bed_gain_db orig_seg in
  overlay bed tts_seg.

(** [translate_long_video_with_optimization] *)
Definition translate_long_video_with_optimization (inp : RunInput) : Run :=
  match extracted_audio inp with
  | None => {| trace := []; final_audio := None; success := false |}
  | Some audio =>
      let '(segment_files, events) := run_windows inp audio in
      match segment_files with
      | [] => {| trace := events; final_audio := None; success := false |}
      | _ =>
          match _combine_segments_simple segment_files with
          | None =>
              {| trace := events ++ [EvCombine false];
                 final_audio := None; success := false |}
          | Some combined_audio =>
              let '(tts, prosody_events) :=
                match prosody inp with
                | Some _ =>
                    (_apply_prosody_to_audio combined_audio (prosody inp)
                       (probed_video_ms inp), [EvProsody])
                | None => (combined_audio, [])
                end in
              let mixed := bed_mix audio tts in
              {| trace := events ++ [EvCombine true] ++ prosody_events
                          ++ [EvBedMix bed_gain_db; EvSync (sync_ok inp)];
                 final_audio := Some mixed;
                 success := sync_ok inp |}
          end
      end
  end.

End Controller.

(** ** Placement plans *)

(** A plan lies in order between two positions of the output track: each
    clip begins at or after the end of the clip before it, the first one
    at or after [lo], and the last one ends at or before [hi]. *)
Fixpoint plan_within (lo : Z) (pl : list Placement) (hi : Z) : Prop :=
  match pl with
  | [] => lo <= hi
  | p :: rest => lo <= onset p /\ plan_within (onset p + len (clip p)) rest hi
  end.

(** The clip of a placement sits at its onset on a track. *)
Definition placed_at (track : Audio) (p : Placement) : Prop :=
  exists before after,
    track = before ++ clip p ++ after /\ len before = onset p.

(** The plan of a loop state describes its track. *)
Definition well_placed (st : LoopState) : Prop :=
  plan_within 0 (plan st) (len (combined st))
  /\ Forall (placed_at (combined st)) (plan st).

(** The track of [st'] is the track of [st] with something appended. *)
Definition extends (st st' : LoopState) : Prop :=
  exists tail, combined st' = combined st ++ tail.

(** An utterance the loops do not skip at their first test: its end is
    after its start, in milliseconds, and its text is not blank. *)
Definition placeable (seg : Segment) : bool :=
  negb ((to_ms (seg_end seg) <=? to_ms (seg_start seg))
        || is_empty (strip (seg_text seg))).

(** ** Inputs of the examples *)

(** A clip of [d] milliseconds that is not silence. *)
Definition tone (d : Z) : Audio := repeat 1 (Z.to_nat d).

(** A translator that answers every text with the same text. *)
Definition translate_to (text_en : string) : string -> string :=
  fun _ => text_en.

(** A synthesizer that gives every utterance the same result. *)
Definition synthesize_always (r : SynthResult) : nat -> string -> SynthResult :=
  fun _ _ => r.

(** An energy analysis that finds no quiet sample. *)
Definition never_quiet : Audio -> list bool :=
  fun audio => repeat false (length audio).

(** Scenario A of the specification: two utterances, from 0 s to 2 s and
    from 3 s to 5 s, with clips of 1.5 s and 3 s. *)
Definition scenario_a_segments : list Segment :=
  [ {| seg_start := 0; seg_end := 2; seg_text := "a" |};
    {| seg_start := 3; seg_end := 5; seg_text := "b" |} ].

Definition scenario_a_synthesize : nat -> string -> SynthResult :=
  fun idx _ => Clip (tone (match idx with O => 1500 | _ => 3000 end)).

(** One utterance from 31 s to 33 s, in a recording cut into windows of
    30 s. *)
Definition late_utterance : Segment :=
  {| seg_start := 31; seg_end := 33; seg_text := "a" |}.

(** One utterance from 25 s to 35 s, across the boundary of the windows
    [0, 30) and [30, 60). *)
Definition boundary_utterance : Segment :=
  {| seg_start := 25; seg_end := 35; seg_text := "a" |}.

(** One utterance from 0 s to 2 s. *)
Definition short_utterance : Segment :=
  {| seg_start := 0; seg_end := 2; seg_text := "a" |}.

(** One utterance from 5 s to 7 s, after 5 s without speech. *)
Definition delayed_utterance : Segment :=
  {| seg_start := 5; seg_end := 7; seg_text := "a" |}.

(** Two utterances, from 0 s to 1 s and from 3 s to 4 s. *)
Definition two_utterances : list Segment :=
  [ {| seg_start := 0; seg_end := 1; seg_text := "a" |};
    {| seg_start := 3; seg_end := 4; seg_text := "b" |} ].

(** An energy analysis at 16 kHz that finds one quiet run, from sample
    8000 to sample 9000, in a clip of one second. *)
Definition one_quiet_run : Audio -> list bool :=
  fun _ => repeat false (Z.to_nat 8000) ++ repeat true (Z.to_nat 1000)
           ++ repeat false (Z.to_nat 7000).

(** ** Runs of the controller *)

(** The windows a run attempts: those that start before the end of the
    recording. *)
Definition attempted_windows (segment_duration : Z) (total_duration : Q)
    (n : nat) : list nat :=
  filter
    (fun i => negb (Qle_bool total_duration (window_start segment_duration i)))
    (seq 0 n).

(** The files a list of window outcomes leaves. *)
Definition files_of (outcome : nat -> option Audio) (windows : list nat)
    : list Audio :=
  flat_map (fun i => match outcome i with
                     | Some file => [file]
                     | None => []
                     end) windows.

(** A track made of silence and of clips of the synthesizer only. *)
Inductive tts_track (is_clip : Audio -> Prop) : Audio -> Prop :=
| tts_empty : tts_track is_clip []
| tts_silence (a : Audio) (d : Z) :
    tts_track is_clip a -> tts_track is_clip (a ++ silent d)
| tts_clip (a c : Audio) :
    tts_track is_clip a -> is_clip c -> tts_track is_clip (a ++ c).

Definition is_bed_mix (e : Event) : bool :=
  match e with
  | EvBedMix _ => true
  | _ => false
  end.

(** A recording of 40 s with one utterance from 0 s to 2 s. *)
Definition run_of_40s : RunInput :=
  {| extracted_audio := Some (tone 40000);
     prosody := Some {| duration := 40; nonsilent_ranges := [] |};
     whisper_segments := [short_utterance];
     fallback_text := "";
     probed_video_ms := None;
     sync_ok := true |}.

(** A recording of 3 s with the same utterance. *)
Definition run_of_3s : RunInput :=
  {| extracted_audio := Some (tone 3000);
     prosody := Some {| duration := 3; nonsilent_ranges := [] |};
     whisper_segments := [short_utterance];
     fallback_text := "";
     probed_video_ms := None;
     sync_ok := true |}.

(** A gain that divides the amplitude by 16, and an overlay that adds
    the tracks frame by frame along the first one. *)
Definition attenuate : Z -> Audio -> Audio :=
  fun _ a => map (fun x => x / 16) a.

Fixpoint add_tracks (bed tts : Audio) : Audio :=
  match bed, tts with
  | b :: bed', t :: tts' => (b + t) :: add_tracks bed' tts'
  | _, _ => bed
  end.

(** ** More of the aligners *)

Section PlacedClips.

Variable _translate_text_ru_en : string -> string.
Variable synthesize_with_voice : nat -> string -> SynthResult.

(** The clip the synthesizer gives for the utterance at an index, empty
    when it gives none. *)
Definition clip_for (idx : nat) (seg : Segment) : Audio :=
  match synthesize_with_voice idx (_translate_text_ru_en (strip (seg_text seg)))
  with
  | Clip seg_audio => seg_audio
  | _ => []
  end.

(** Every utterance from an index on is placed, translated, and
    synthesized into a clip that is not longer than the utterance. *)
Fixpoint short_clips (idx : nat) (segments : list Segment) : Prop :=
  match segments with
  | [] => True
  | seg :: rest =>
      placeable seg = true
      /\ is_empty (_translate_text_ru_en (strip (seg_text seg))) = false
      /\ (exists seg_audio,
            synthesize_with_voice idx
              (_translate_text_ru_en (strip (seg_text seg))) = Clip seg_audio
            /\ len seg_audio <= to_ms (seg_end seg) - to_ms (seg_start seg))
      /\ short_clips (S idx) rest
  end.

(** The plan in which every clip begins where its utterance begins in
    the recording. *)
Fixpoint plan_at_starts (idx : nat) (segments : list Segment)
    : list Placement :=
  match segments with
  | [] => []
  | seg :: rest =>
      {| onset := to_ms (seg_start seg); clip := clip_for idx seg |}
      :: plan_at_starts (S idx) rest
  end.

(** A clip is one the synthesizer returned. *)
Definition is_synthesized (seg_audio : Audio) : Prop :=
  exists idx text, synthesize_with_voice idx text = Clip seg_audio.

End PlacedClips.

(** The utterances follow one another without overlap, in milliseconds,
    the first one at or after [lo]. *)
Fixpoint in_order (lo : Z) (segments : list Segment) : Prop :=
  match segments with
  | [] => True
  | seg :: rest =>
      lo <= to_ms (seg_start seg) /\ in_order (to_ms (seg_end seg)) rest
  end.

(** The track and the cursor that the window aligner builds when it
    places each utterance at its start: from the cursor, silence up to
    the start of the utterance, then the clip, the cursor being the
    start plus the length of the clip afterwards. *)
Fixpoint track_at_starts (translate : string -> string)
    (synthesize : nat -> string -> SynthResult)
    (idx : nat) (cursor : Z) (segments : list Segment) : Audio * Z :=
  match segments with
  | [] => ([], cursor)
  | seg :: rest =>
      let start_ms := to_ms (seg_start seg) in
      let seg_audio := clip_for translate synthesize idx seg in
      let '(track, final) :=
        track_at_starts translate synthesize (S idx)
          (start_ms + len seg_audio) rest in
      (silent (start_ms - cursor) ++ seg_audio ++ track, final)
  end.

(** ** Quiet runs *)

(** Runs [(start, end)] of sample indices in order between [lo] and
    [hi]: each run is not empty, a run begins after the end of the run
    before it, the first one at or after [lo], and the last one ends
    before [hi]. *)
Fixpoint runs_chain (lo : Z) (runs : list (Z * Z)) (hi : Z) : Prop :=
  match runs with
  | [] => lo <= hi
  | (s, e) :: rest => lo <= s /\ s < e /\ runs_chain (e + 1) rest hi
  end.

(** What the scan has found when it is at the sample [i]: the runs that
    are closed, and the start of the run that is open. *)
Definition scan_state (sc : QuietScan) (i : Z) : Prop :=
  if in_quiet sc then
    exists starts s,
      quiet_starts sc = starts ++ [s]
      /\ length starts = length (quiet_ends sc)
      /\ runs_chain 0 (List.combine starts (quiet_ends sc)) s
      /\ s < i
  else
    length (quiet_starts sc) = length (quiet_ends sc)
    /\ runs_chain 0 (List.combine (quiet_starts sc) (quiet_ends sc)) i.

(** ** The speaker reference *)

(** [max(nonsilent_ranges, key=lambda r: r[1] - r[0])]: the first of the
    longest ranges. *)
Definition range_length (r : Z * Z) : Z := snd r - fst r.

Definition longest_range (ranges : list (Z * Z)) : option (Z * Z) :=
  match ranges with
  | [] => None
  | r :: rest =>
      Some (fold_left
              (fun best r => if range_length best <? range_length r
                             then r else best)
              rest r)
  end.

(** The window cut for the reference around the selected range: cropped
    about its centre when it is longer than [max_duration_ms], widened on
    both sides when it is shorter than [min_duration_ms]. *)
Definition reference_window (selected : Z * Z)
    (min_duration_ms max_duration_ms : Z) : Z * Z :=
  let '(start, end_) := selected in
  let duration := end_ - start in
  if duration >? max_duration_ms then
    let center := start + duration / 2 in
    let half := max_duration_ms / 2 in
    let start := Z.max 0 (center - half) in
    (start, start + max_duration_ms)
  else if duration <? min_duration_ms then
    let deficit := min_duration_ms - duration in
    let extend_left := deficit / 2 in
    let extend_right := deficit - extend_left in
    (Z.max 0 (start - extend_left), end_ + extend_right)
  else (start, end_).

(** [extract_speaker_reference]: the ranges of the prosody information
    when there are some, else those [detect_nonsilent] finds; the result
    is the segment written to the reference file, [None] for the return
    value [None]. *)
Definition extract_speaker_reference (audio : Audio)
    (prosody_info : option ProsodyInfo) (detected : list (Z * Z))
    (min_duration_ms max_duration_ms : Z) : option Audio :=
  let nonsilent_ranges :=
    match prosody_info with
    | Some info =>
        match nonsilent_ranges info with
        | [] => detected
        | ranges => ranges
        end
    | None => detected
    end in
  match longest_range nonsilent_ranges with
  | None => None
  | Some selected =>
      let '(start, end_) :=
        reference_window selected min_duration_ms max_duration_ms in
      Some (slice audio start end_)
  end.

(** ** Silence around the synthesized track *)

(** The silence [_apply_prosody_to_audio] puts before the track: the
    start of the first speech interval when it is more than 50 ms. *)
Definition leading_silence (ranges : list (Z * Z)) : Z :=
  match ranges with
  | (first_start, _) :: _ => if first_start >? 50 then first_start else 0
  | [] => 0
  end.

(** An index lies in one of the runs. *)
Definition in_runs (runs : list (Z * Z)) (j : Z) : Prop :=
  exists s e, In (s, e) runs /\ s <= j < e.

(** The runs the scan would return if the samples ended at [hi]. *)
Definition scan_runs (sc : QuietScan) (hi : Z) : list (Z * Z) :=
  List.combine (quiet_starts sc)
    (if in_quiet sc then quiet_ends sc ++ [hi] else quiet_ends sc).

(** One step of the scan, at the sample [i] with the flag [is_quiet]. *)
Definition scan_step (i : Z) (is_quiet : bool) (sc : QuietScan) : QuietScan :=
  if is_quiet && negb (in_quiet sc) then
    {| quiet_starts := quiet_starts sc ++ [i];
       quiet_ends := quiet_ends sc;
       in_quiet := true |}
  else if negb is_quiet && in_quiet sc then
    {| quiet_starts := quiet_starts sc;
       quiet_ends := quiet_ends sc ++ [i];
       in_quiet := false |}
  else sc.

(** ** The direct translation of the audio *)

Section TranslateAudio.

(** [self.model.generate] on one chunk of samples, as an array; [None]
    when it raises. *)
Variable generate : list Z -> option (list Z).

(** 15 seconds of samples at 16 kHz. *)
Definition translation_chunk : Z := 15 * 16000.

(** [range(0, n, step)] *)
Definition range_step (n step : Z) : list Z :=
  map (fun k => Z.of_nat k * step)
    (seq 0 (Z.to_nat ((n + step - 1) / step))).

(** The chunks [audio[:, i:i+segment_duration]] of the loop of
    [translate_audio]. *)
Definition translation_chunks (samples : list Z) : list (list Z) :=
  map (fun i => slice samples i (i + translation_chunk))
    (range_step (len samples) translation_chunk).

(** The loop over the chunks: [translated_segments], or [None] when the
    model raises on a chunk. *)
Fixpoint translate_chunks (chunks : list (list Z))
  : option (list (list Z)) :=
  match chunks with
  | [] => Some []
  | segment :: later =>
      if len segment <? 1000 then translate_chunks later
      else
        match generate segment with
        | None => None
        | Some segment_array =>
            match translate_chunks later with
            | None => None
            | Some translated_segments =>
                Some (segment_array :: translated_segments)
            end
        end
  end.

(** [translate_audio] on the samples of the track at 16 kHz: the
    translated samples, or [None] for the result [(None, None)] of the
    exception handler; [np.concatenate] raises on an empty list. *)
Definition translate_audio (samples : list Z) : option (list Z) :=
  match translate_chunks (translation_chunks samples) with
  | None => None
  | Some [] => None
  | Some translated_segments => Some (concat translated_segments)
  end.

End TranslateAudio.

(** The chunks that the loop of [translate_audio] does not skip. *)
Definition kept_chunks (samples : list Z) : list (list Z) :=
  filter (fun segment => negb (len segment <? 1000))
    (translation_chunks samples).

(** A recording of 70 s in which no speech is recognised. *)
Definition run_without_speech : RunInput :=
  {| extracted_audio := Some (tone 70000);
     prosody := Some {| duration := 70; nonsilent_ranges := [] |};
     whisper_segments := [];
     fallback_text := "";
     probed_video_ms := None;
     sync_ok := true |}.

(** The end of window [j - 1] in milliseconds, and [0] before window 0:
    the boundaries of the windows on the recording. *)
Definition window_boundary_ms (segment_duration : Z) (total_duration : Q)
    (j : nat) : Z :=
  to_ms (py_min (window_start segment_duration j) total_duration).

(** * Properties *)

(** ** Lengths and slices *)

Lemma len_nonneg (a : Audio) : 0 <= len a.
Proof. unfold len; lia. Qed.

Lemma len_app (a b : Audio) : len (a ++ b) = len a + len b.
Proof. unfold len; rewrite length_app; lia. Qed.

Lemma len_silent (d : Z) : len (silent d) = Z.max 0 d.
Proof. unfold len, silent; rewrite repeat_length; lia. Qed.

Lemma silent_nonpos (d : Z) : d <= 0 -> silent d = [].
Proof.
  intros H; unfold silent.
  replace (Z.to_nat d) with 0%nat by lia; reflexivity.
Qed.

Lemma len_slice (a : Audio) (s e : Z) :
  0 <= s -> len (slice a s e) = Z.max 0 (Z.min e (len a) - Z.min s (len a)).
Proof.
  intros Hs; unfold slice, len.
  rewrite length_firstn, length_skipn; lia.
Qed.

(** A slice is a contiguous part of the segment it is cut from, and
    it starts [min s (len a)] frames into it. *)
Lemma slice_infix (a : Audio) (s e : Z) :
  0 <= s ->
  exists pre post,
    a = pre ++ slice a s e ++ post /\ len pre = Z.min s (len a).
Proof.
  intros Hs; unfold slice.
  set (s' := Z.min s (len a)); set (e' := Z.min e (len a)).
  exists (firstn (Z.to_nat s') a),
         (skipn (Z.to_nat (e' - s')) (skipn (Z.to_nat s') a)).
  split.
  - rewrite firstn_skipn, firstn_skipn; reflexivity.
  - unfold len; rewrite length_firstn.
    subst s'; unfold len; lia.
Qed.

Lemma Qltb_lt (x y : Q) : Qltb x y = true <-> (x < y)%Q.
Proof.
  unfold Qltb; rewrite negb_true_iff.
  split; intros H.
  - apply Qnot_le_lt; intros Hle.
    apply Qle_bool_iff in Hle; congruence.
  - destruct (Qle_bool y x) eqn:E; [| reflexivity].
    apply Qle_bool_iff in E; exfalso; revert E; apply Qlt_not_le, H.
Qed.

Lemma to_ms_nonneg (t : Q) : (0 <= t)%Q -> 0 <= to_ms t.
Proof.
  intros H; unfold to_ms, py_int.
  assert (H0 : (0 <= t * 1000)%Q).
  { apply Qmult_le_0_compat; [assumption | discriminate]. }
  destruct (Qle_bool 0 (t * 1000)) eqn:E.
  - change 0 with (Qfloor 0); apply Qfloor_resp_le; assumption.
  - apply Qle_bool_iff in H0; congruence.
Qed.

(** ** Window extraction *)

Lemma len_slice_le (a : Audio) (s e : Z) :
  0 <= s -> s + len (slice a s e) <= Z.max s (len a).
Proof.
  intros Hs; rewrite len_slice by assumption.
  pose proof (len_nonneg a); lia.
Qed.

(** C10. For every extraction request with times that are not negative:
    nothing is written when the source file is missing; with a
    source, the call fails exactly when the source is empty, the start is
    at or beyond its end, or the clipped segment is empty; and a segment
    that is written is the part of the source from [start_ms] to the end
    time clamped to the length of the source, so it lies inside the
    source. *)
Theorem extract_audio_segment_within_source :
  forall (source : option Audio) (start_time end_time : Q),
    (0 <= start_time)%Q -> (0 <= end_time)%Q ->
    let start_ms := to_ms start_time in
    let result := _extract_audio_segment source start_time end_time in
    match source with
    | None => result = None
    | Some audio =>
        let clipped :=
          slice audio start_ms (Z.min (to_ms end_time) (len audio)) in
        (result = None <->
           len audio = 0 \/ len audio <= start_ms \/ len clipped = 0)
        /\ (forall segment, result = Some segment ->
              segment = clipped
              /\ 0 < len segment
              /\ start_ms + len segment <= len audio
              /\ exists before after,
                   audio = before ++ segment ++ after
                   /\ len before = start_ms)
    end.
Proof.
  intros source start_time end_time Hstart _ start_ms result.
  destruct source as [audio |]; [| reflexivity].
  assert (Hs : 0 <= start_ms) by (apply to_ms_nonneg; assumption).
  cbv zeta.
  assert (Hclamp :
    (if to_ms end_time >? len audio then len audio else to_ms end_time)
    = Z.min (to_ms end_time) (len audio)).
  { destruct (Z.gtb_spec (to_ms end_time) (len audio)); lia. }
  subst result; unfold _extract_audio_segment; fold start_ms.
  rewrite Hclamp.
  set (clipped := slice audio start_ms (Z.min (to_ms end_time) (len audio))).
  destruct (Z.eqb_spec (len audio) 0) as [H0 | H0].
  { split; [intuition | discriminate]. }
  destruct (Z.geb_spec start_ms (len audio)) as [Hge | Hlt].
  { split; [intuition | discriminate]. }
  destruct (Z.eqb_spec (len clipped) 0) as [Hc | Hc].
  { split; [intuition | discriminate]. }
  split.
  - split; [discriminate | intros [H | [H | H]]; lia].
  - intros segment Heq; injection Heq as <-.
    pose proof (len_nonneg clipped) as Hn.
    pose proof (len_slice_le audio start_ms
                  (Z.min (to_ms end_time) (len audio)) Hs) as Hle.
    fold clipped in Hle.
    repeat split; try lia.
    destruct (slice_infix audio start_ms
                (Z.min (to_ms end_time) (len audio)) Hs)
      as (before & after & Hsplit & Hlen).
    exists before, after; split; [exact Hsplit | lia].
Qed.

(** The theorem at a track of five frames, cut from 0.001 s to 0.003 s. *)
Lemma extract_audio_segment_within_source_witness :
  (0 <= 1 # 1000)%Q /\ (0 <= 3 # 1000)%Q
  /\ _extract_audio_segment (Some [1; 2; 3; 4; 5]) (1 # 1000) (3 # 1000)
     = Some [2; 3].
Proof.
  split; [discriminate |]; split; [discriminate |].
  pose proof (extract_audio_segment_within_source
                (Some [1; 2; 3; 4; 5]) (1 # 1000) (3 # 1000)) as H.
  assert (Hstart : (0 <= 1 # 1000)%Q) by discriminate.
  assert (Hend : (0 <= 3 # 1000)%Q) by discriminate.
  specialize (H Hstart Hend); cbv zeta in H.
  destruct H as [_ H].
  destruct (_extract_audio_segment (Some [1; 2; 3; 4; 5])
              (1 # 1000) (3 # 1000)) as [segment |] eqn:E.
  - destruct (H segment eq_refl) as [-> _]; reflexivity.
  - vm_compute in E; discriminate.
Defined.

(** ** Window selection *)

Lemma in_window_iff (start_time end_time : Q) (seg : Segment) :
  in_window start_time end_time seg = true
  <-> (seg_start seg < end_time)%Q /\ (start_time < seg_end seg)%Q.
Proof.
  unfold in_window; rewrite andb_true_iff, !Qltb_lt; reflexivity.
Qed.

(** C1, as the code has it. An utterance is selected for a window exactly
    when its span overlaps the window.  So an utterance with
    [start < end] is selected in the window [a, b) that contains its
    start, and it is selected in the next window [b, c) as well exactly
    when its end lies beyond the boundary [b]. *)
Theorem window_selection_by_overlap :
  forall (all : list Segment) (seg : Segment) (a b c : Q),
    (forall s e,
        In seg (relevant_segments all s e)
        <-> In seg all /\ (seg_start seg < e)%Q /\ (s < seg_end seg)%Q)
    /\ (In seg all ->
        (seg_start seg < seg_end seg)%Q ->
        (a <= seg_start seg)%Q -> (seg_start seg < b)%Q -> (b < c)%Q ->
        In seg (relevant_segments all a b)
        /\ (In seg (relevant_segments all b c) <-> (b < seg_end seg)%Q)).
Proof.
  intros all seg a b c.
  assert (Hiff : forall s e,
             In seg (relevant_segments all s e)
             <-> In seg all /\ (seg_start seg < e)%Q /\ (s < seg_end seg)%Q).
  { intros s e; unfold relevant_segments.
    rewrite filter_In, in_window_iff; reflexivity. }
  split; [exact Hiff |].
  intros Hin Hpos Ha Hb Hbc; split.
  - apply Hiff; repeat split; try assumption.
    eapply Qle_lt_trans; eassumption.
  - rewrite Hiff; split.
    + intros (_ & _ & H); exact H.
    + intros H; repeat split; try assumption.
      eapply Qlt_trans; eassumption.
Qed.

(** An utterance from 25 s to 35 s and the windows [0, 30) and [30, 60). *)
Lemma window_selection_by_overlap_witness :
  let seg := {| seg_start := 25; seg_end := 35; seg_text := "a" |} in
  In seg (relevant_segments [seg] 0 30)
  /\ In seg (relevant_segments [seg] 30 60).
Proof.
  intros seg.
  destruct (window_selection_by_overlap [seg] seg 0 30 60) as [_ H].
  assert (Hin : In seg [seg]) by (left; reflexivity).
  assert (H1 : (seg_start seg < seg_end seg)%Q) by reflexivity.
  assert (H2 : (0 <= seg_start seg)%Q) by discriminate.
  assert (H3 : (seg_start seg < 30)%Q) by reflexivity.
  assert (H4 : (30 < 60)%Q) by reflexivity.
  destruct (H Hin H1 H2 H3 H4) as [Ha Hb].
  split; [exact Ha | apply Hb; reflexivity].
Defined.

(** C1, as it is stated, fails: the utterance from 25 s to 35 s is
    selected for the window [0, 30), which contains its start, and for
    the window [30, 60), which does not. *)
Lemma boundary_utterance_selected_twice :
  let seg := {| seg_start := 25; seg_end := 35; seg_text := "a" |} in
  relevant_segments [seg] 0 30 = [seg]
  /\ relevant_segments [seg] 30 60 = [seg]
  /\ ~ (30 <= seg_start seg)%Q.
Proof.
  cbv zeta; repeat split.
  apply Qlt_not_le; reflexivity.
Qed.

(** ** The length lock of the track assembler *)

Lemma len_slice_to (a : Audio) (e : Z) :
  0 <= e <= len a -> len (slice_to a e) = e.
Proof.
  intros H; unfold slice_to; rewrite len_slice by lia; lia.
Qed.

(** C4, as the code has it. For a target that is positive the last step
    of the assembler pads or cuts: to a shorter track it appends silence
    asked for the missing duration, the target minus the length of the
    track; a track more than 50 ms longer than the target is cut to its
    first [target] milliseconds; a track in between is left as it is.
    The result is never more than 50 ms longer than the target.  A
    target that is not positive leaves every track as it is. *)
Theorem force_duration_pads_or_cuts :
  forall (a : Audio) (target : Z),
    let out := force_duration target a in
    (target <= 0 -> out = a)
    /\ (0 < target ->
        (len a < target -> out = a ++ silent (target - len a))
        /\ (target + 50 < len a ->
              out = slice_to a target /\ len out = target)
        /\ (target <= len a <= target + 50 -> out = a)
        /\ len out <= target + 50).
Proof.
  intros a target out; subst out; unfold force_duration.
  split.
  - intros H; destruct (Z.ltb_spec 0 target); [lia | reflexivity].
  - intros Hpos.
    destruct (Z.ltb_spec 0 target) as [_ | ?]; [| lia].
    destruct (Z.ltb_spec (len a) target) as [Hshort | Hlong].
    + assert (Hlen : len (a ++ silent (target - len a)) = target).
      { rewrite len_app, len_silent; lia. }
      repeat split; try lia; intros; lia.
    + destruct (Z.gtb_spec (len a) (target + 50)) as [Hcut | Hkeep].
      * assert (Hlen : len (slice_to a target) = target).
        { apply len_slice_to; lia. }
        repeat split; try lia; intros; lia.
      * repeat split; try lia; intros; lia.
Qed.

(** A track of three frames and the target 5: two frames of silence are
    appended. *)
Lemma force_duration_pads_or_cuts_witness :
  0 < 5 /\ force_duration 5 [1; 2; 3] = [1; 2; 3] ++ silent (5 - 3).
Proof.
  split; [lia |].
  destruct (force_duration_pads_or_cuts [1; 2; 3] 5) as [_ H].
  assert (Hpos : 0 < 5) by lia.
  destruct (H Hpos) as [Hshort _].
  assert (Hlt : len [1; 2; 3] < 5) by (vm_compute; reflexivity).
  exact (Hshort Hlt).
Defined.

(** C4, as it is stated, fails at the target 0: a track of 100 ms stays
    100 ms long, which is not within 50 ms of the target. *)
Lemma force_duration_ignores_zero_target :
  0 <= 0
  /\ len (force_duration 0 (silent 100)) = 100
  /\ ~ (len (force_duration 0 (silent 100)) <= 0 + 50).
Proof.
  split; [lia |].
  assert (H : len (force_duration 0 (silent 100)) = 100)
    by (vm_compute; reflexivity).
  split; [exact H | rewrite H; lia].
Qed.

(** ** The loops only append *)

Lemma for_enumerate_split
    (body : nat -> Segment -> option Segment -> LoopState -> LoopState)
    (before following : list Segment) :
  forall (idx : nat) (st : LoopState),
    for_enumerate body idx (before ++ following) st
    = for_enumerate body (idx + length before) following
        (for_enumerate_prefix body idx before following st).
Proof.
  induction before as [| seg rest IH]; intros idx st; simpl.
  - rewrite Nat.add_0_r; reflexivity.
  - rewrite IH; f_equal; lia.
Qed.

Lemma for_enumerate_invariant
    (body : nat -> Segment -> option Segment -> LoopState -> LoopState)
    (P : LoopState -> Prop) :
  (forall idx seg next st, P st -> P (body idx seg next st)) ->
  forall segments idx st, P st -> P (for_enumerate body idx segments st).
Proof.
  intros Hbody segments; induction segments as [| seg rest IH];
    intros idx st Hst; simpl; auto.
Qed.

Lemma extends_refl (st : LoopState) : extends st st.
Proof. exists []; rewrite app_nil_r; reflexivity. Qed.

Lemma extends_trans (st1 st2 st3 : LoopState) :
  extends st1 st2 -> extends st2 st3 -> extends st1 st3.
Proof.
  intros [t1 H1] [t2 H2]; exists (t1 ++ t2).
  rewrite H2, H1, app_assoc; reflexivity.
Qed.

Lemma extends_add_silence (d : Z) (st0 st : LoopState) :
  extends st0 st -> extends st0 (add_silence d st).
Proof.
  intros H; apply (extends_trans _ _ _ H); exists (silent d); reflexivity.
Qed.

Lemma extends_add_clip (seg_audio : Audio) (st0 st : LoopState) :
  extends st0 st -> extends st0 (add_clip seg_audio st).
Proof.
  intros H; apply (extends_trans _ _ _ H); exists seg_audio; reflexivity.
Qed.

Lemma extends_set_current_ms (ms : Z) (st0 st : LoopState) :
  extends st0 st -> extends st0 (set_current_ms ms st).
Proof. intros H; exact H. Qed.

Lemma extends_set_prev_en_terminal (b : bool) (st0 st : LoopState) :
  extends st0 st -> extends st0 (set_prev_en_terminal b st).
Proof. intros H; exact H. Qed.

Lemma plan_within_le (pl : list Placement) :
  forall lo hi, plan_within lo pl hi -> lo <= hi.
Proof.
  induction pl as [| p rest IH]; intros lo hi H; simpl in H; [exact H |].
  destruct H as [H1 H2]; apply IH in H2.
  pose proof (len_nonneg (clip p)); lia.
Qed.

Lemma plan_within_grow (pl : list Placement) :
  forall lo hi hi', plan_within lo pl hi -> hi <= hi' -> plan_within lo pl hi'.
Proof.
  induction pl as [| p rest IH]; intros lo hi hi' H Hle; simpl in *.
  - lia.
  - destruct H as [H1 H2]; split; [exact H1 | eapply IH; eassumption].
Qed.

Lemma plan_within_snoc (pl : list Placement) (p : Placement) :
  forall lo, plan_within lo pl (onset p) ->
             plan_within lo (pl ++ [p]) (onset p + len (clip p)).
Proof.
  induction pl as [| q rest IH]; intros lo H; simpl in *.
  - split; [exact H | lia].
  - destruct H as [H1 H2]; split; [exact H1 | apply IH, H2].
Qed.

Lemma plan_within_bounds (pl : list Placement) :
  forall lo hi p, plan_within lo pl hi -> In p pl ->
                  lo <= onset p /\ onset p + len (clip p) <= hi.
Proof.
  induction pl as [| q rest IH]; intros lo hi p H Hin; [destruct Hin |].
  simpl in H; destruct H as [H1 H2].
  destruct Hin as [-> | Hin].
  - split; [exact H1 | apply (plan_within_le _ _ _ H2)].
  - destruct (IH _ _ _ H2 Hin) as [Ha Hb].
    pose proof (len_nonneg (clip q)); lia.
Qed.

Lemma plan_within_ordered (pl : list Placement) :
  forall lo hi i j p q,
    plan_within lo pl hi -> (i < j)%nat ->
    nth_error pl i = Some p -> nth_error pl j = Some q ->
    onset p + len (clip p) <= onset q.
Proof.
  induction pl as [| r rest IH]; intros lo hi i j p q H Hij Hi Hj.
  - destruct i; discriminate.
  - simpl in H; destruct H as [H1 H2].
    destruct j as [| j]; [lia |].
    destruct i as [| i]; simpl in Hi, Hj.
    + injection Hi as <-.
      apply nth_error_In in Hj.
      apply (plan_within_bounds _ _ _ _ H2 Hj).
    + apply (IH _ _ i j p q H2); [lia | assumption | assumption].
Qed.

Lemma placed_at_app (track tail : Audio) (p : Placement) :
  placed_at track p -> placed_at (track ++ tail) p.
Proof.
  intros (before & after & Heq & Hlen).
  exists before, (after ++ tail); split; [| exact Hlen].
  rewrite Heq, <- !app_assoc; reflexivity.
Qed.

Lemma well_placed_initial : well_placed initial_state.
Proof.
  split; simpl; [rewrite len_silent; lia | constructor].
Qed.

Lemma well_placed_add_silence (d : Z) (st : LoopState) :
  well_placed st -> well_placed (add_silence d st).
Proof.
  intros [H1 H2]; split; simpl.
  - eapply plan_within_grow; [exact H1 |].
    rewrite len_app; pose proof (len_nonneg (silent d)); lia.
  - eapply Forall_impl; [| exact H2].
    intros p; apply placed_at_app.
Qed.

Lemma well_placed_add_clip (seg_audio : Audio) (st : LoopState) :
  well_placed st -> well_placed (add_clip seg_audio st).
Proof.
  intros [H1 H2]; split; simpl.
  - rewrite len_app.
    apply (plan_within_snoc (plan st)
             {| onset := len (combined st); clip := seg_audio |}), H1.
  - apply Forall_app; split.
    + eapply Forall_impl; [| exact H2].
      intros p; apply placed_at_app.
    + constructor; [| constructor].
      exists (combined st), []; simpl.
      rewrite app_nil_r; split; reflexivity.
Qed.

Lemma well_placed_set_current_ms (ms : Z) (st : LoopState) :
  well_placed st -> well_placed (set_current_ms ms st).
Proof. intros H; exact H. Qed.

Lemma well_placed_set_prev_en_terminal (b : bool) (st : LoopState) :
  well_placed st -> well_placed (set_prev_en_terminal b st).
Proof. intros H; exact H. Qed.

Create HintDb align.

#[local] Hint Resolve extends_refl extends_add_silence extends_add_clip
  extends_set_current_ms extends_set_prev_en_terminal
  well_placed_add_silence well_placed_add_clip well_placed_set_current_ms
  well_placed_set_prev_en_terminal : align.

(** Take a loop body apart, branch by branch. *)
Ltac split_body :=
  repeat match goal with
         | |- context [if ?b then _ else _] => destruct b
         | |- context [match ?r with NoResult => _ | _ => _ end] => destruct r
         | |- context [match ?o with Some _ => _ | None => _ end] =>
             destruct o
         end.

Section AlignerProperties.

Variable translate : string -> string.
Variable synthesize : nat -> string -> SynthResult.
Variable quiet : Audio -> list bool.

Lemma place_longer_extends seg_audio ru_duration end_ms next_start_ms st :
  extends st (place_longer seg_audio ru_duration end_ms next_start_ms st).
Proof. unfold place_longer; split_body; auto with align. Qed.

Lemma place_longer_well_placed seg_audio ru_duration end_ms next_start_ms st :
  well_placed st ->
  well_placed (place_longer seg_audio ru_duration end_ms next_start_ms st).
Proof. intros H; unfold place_longer; split_body; auto with align. Qed.

Lemma insert_pause_well_placed start_ms st :
  well_placed st -> well_placed (insert_pause start_ms st).
Proof. intros H; unfold insert_pause; split_body; auto with align. Qed.

Lemma correct_timing_body_extends idx seg next st :
  extends st (correct_timing_body translate synthesize idx seg next st).
Proof.
  unfold correct_timing_body; split_body; auto 6 with align.
  all: apply extends_set_prev_en_terminal, place_longer_extends.
Qed.

Lemma correct_timing_body_well_placed idx seg next st :
  well_placed st ->
  well_placed (correct_timing_body translate synthesize idx seg next st).
Proof.
  intros H; unfold correct_timing_body; split_body; auto 6 with align.
  all: apply well_placed_set_prev_en_terminal, place_longer_well_placed;
    auto with align.
Qed.

Lemma voice_preservation_body_well_placed idx seg next st :
  well_placed st ->
  well_placed
    (voice_preservation_body translate synthesize quiet idx seg next st).
Proof.
  intros H; unfold voice_preservation_body.
  pose proof (insert_pause_well_placed (to_ms (seg_start seg)) st H) as Hp.
  split_body; auto 6 with align.
Qed.

Lemma full_functionality_body_well_placed time_offset idx seg next st :
  well_placed st ->
  well_placed
    (full_functionality_body translate synthesize time_offset idx seg next st).
Proof.
  intros H; unfold full_functionality_body.
  pose proof (insert_pause_well_placed
                (to_ms (seg_start seg + time_offset)) st H) as Hp.
  split_body; auto 6 with align.
  all: apply well_placed_set_prev_en_terminal, place_longer_well_placed, Hp.
Qed.

Lemma correct_timing_loop_extends segments idx st :
  extends st
    (for_enumerate (correct_timing_body translate synthesize) idx segments st).
Proof.
  revert idx st; induction segments as [| seg rest IH]; intros idx st; simpl.
  - apply extends_refl.
  - eapply extends_trans; [apply correct_timing_body_extends | apply IH].
Qed.

(** C8. In the window aligner and in the aligner of short recordings,
    for every utterance list and every behaviour of the translator and
    the synthesizer: in the order of the plan each clip begins at or
    after the end of every clip before it, so the onsets do not decrease
    and no two clips overlap; and each clip sits on the output track at
    its onset, inside the track. *)
Theorem placements_monotone_and_disjoint :
  forall (segments : list Segment) (st : LoopState),
    st = correct_timing_loop translate synthesize segments
    \/ st = voice_preservation_loop translate synthesize quiet segments ->
    (forall i j p q,
        (i < j)%nat ->
        nth_error (plan st) i = Some p -> nth_error (plan st) j = Some q ->
        onset p <= onset q /\ onset p + len (clip p) <= onset q)
    /\ (forall p,
          In p (plan st) ->
          placed_at (combined st) p
          /\ 0 <= onset p /\ onset p + len (clip p) <= len (combined st)).
Proof.
  intros segments st Hst.
  assert (Hwp : well_placed st).
  { destruct Hst as [-> | ->].
    - unfold correct_timing_loop.
      apply (for_enumerate_invariant _ well_placed);
        [| apply well_placed_initial].
      intros; apply correct_timing_body_well_placed; assumption.
    - unfold voice_preservation_loop.
      apply (for_enumerate_invariant _ well_placed);
        [| apply well_placed_initial].
      intros; apply voice_preservation_body_well_placed; assumption. }
  destruct Hwp as [Hplan Hat]; split.
  - intros i j p q Hij Hi Hj.
    pose proof (plan_within_ordered _ _ _ _ _ _ _ Hplan Hij Hi Hj) as Hord.
    pose proof (len_nonneg (clip p)); lia.
  - intros p Hin; split.
    + rewrite Forall_forall in Hat; apply Hat, Hin.
    + apply (plan_within_bounds _ _ _ _ Hplan Hin).
Qed.

End AlignerProperties.

(** The plan of scenario A in the window aligner: the second clip begins
    where the first one ends. *)
Lemma placements_monotone_and_disjoint_witness :
  let st := correct_timing_loop (translate_to "Hello.") scenario_a_synthesize
              scenario_a_segments in
  let p := {| onset := 0; clip := tone 1500 |} in
  let q := {| onset := 1500; clip := tone 3000 |} in
  plan st = [p; q] /\ onset p <= onset q /\ onset p + len (clip p) <= onset q.
Proof.
  intros st p q.
  assert (Hplan : plan st = [p; q]) by (vm_compute; reflexivity).
  split; [exact Hplan |].
  destruct (placements_monotone_and_disjoint (translate_to "Hello.")
              scenario_a_synthesize never_quiet scenario_a_segments st
              (or_introl eq_refl)) as [Hord _].
  apply (Hord 0%nat 1%nat p q); [lia | | ]; rewrite Hplan; reflexivity.
Defined.

(** ** Truncation to milliseconds is monotone *)

Lemma py_int_le (x y : Q) : (x <= y)%Q -> py_int x <= py_int y.
Proof.
  intros Hxy; unfold py_int.
  destruct (Qle_bool 0 x) eqn:Ex; destruct (Qle_bool 0 y) eqn:Ey.
  - apply Qfloor_resp_le, Hxy.
  - apply Qle_bool_iff in Ex.
    assert (H : Qle_bool 0 y = true).
    { apply Qle_bool_iff; eapply Qle_trans; eassumption. }
    congruence.
  - apply Qle_bool_iff in Ey.
    assert (Hx : (x <= 0)%Q).
    { apply Qlt_le_weak, Qnot_le_lt; intros H.
      apply Qle_bool_iff in H; congruence. }
    apply Qceiling_resp_le in Hx; apply Qfloor_resp_le in Ey.
    change (Qceiling 0) with 0 in Hx; change (Qfloor 0) with 0 in Ey; lia.
  - apply Qceiling_resp_le, Hxy.
Qed.

Lemma to_ms_le (x y : Q) : (x <= y)%Q -> to_ms x <= to_ms y.
Proof.
  intros H; unfold to_ms; apply py_int_le.
  apply Qmult_le_compat_r; [exact H | discriminate].
Qed.

(** ** The window aligner: cursor and global timestamps *)

Section WindowProperties.

Variable translate : string -> string.
Variable synthesize : nat -> string -> SynthResult.

Lemma correct_timing_body_skip idx seg next st :
  placeable seg = false ->
  correct_timing_body translate synthesize idx seg next st = st.
Proof.
  unfold placeable, correct_timing_body; intros H.
  apply negb_false_iff in H; rewrite H; reflexivity.
Qed.

Lemma correct_timing_prefix_skipped before following :
  Forall (fun s => placeable s = false) before ->
  forall idx st,
    for_enumerate_prefix (correct_timing_body translate synthesize)
      idx before following st = st.
Proof.
  induction 1 as [| seg rest Hseg _ IH]; intros idx st; simpl.
  - reflexivity.
  - rewrite correct_timing_body_skip by assumption; apply IH.
Qed.

(** The body at an utterance that is placed and whose clip is not longer
    than the utterance. *)
Lemma correct_timing_body_short idx seg next st seg_audio :
  placeable seg = true ->
  is_empty (translate (strip (seg_text seg))) = false ->
  synthesize idx (translate (strip (seg_text seg))) = Clip seg_audio ->
  len seg_audio <= to_ms (seg_end seg) - to_ms (seg_start seg) ->
  combined (correct_timing_body translate synthesize idx seg next st)
  = combined st ++ silent (to_ms (seg_start seg) - current_ms st) ++ seg_audio
  /\ current_ms (correct_timing_body translate synthesize idx seg next st)
     = to_ms (seg_start seg) + len seg_audio.
Proof.
  unfold placeable, correct_timing_body; intros Hp Ht Hs Hle.
  apply negb_true_iff in Hp; rewrite Hp, Ht, Hs.
  destruct (Z.leb_spec (len seg_audio)
              (to_ms (seg_end seg) - to_ms (seg_start seg))); [| lia].
  destruct (Z.gtb_spec (to_ms (seg_start seg)) (current_ms st)); simpl.
  - rewrite <- app_assoc; split; reflexivity.
  - rewrite silent_nonpos by lia; split; reflexivity.
Qed.

(** C3, as the code has it. In the window processor the cursor starts
    at 0 while the timestamps are those of the whole recording.  When
    the first utterance of a window that is not skipped is synthesized
    into a clip no longer than the utterance, the track of the window is
    silence asked for [s] milliseconds, [s] being the start of the
    utterance in the recording and not its offset in the window, then
    the whole clip, then the rest; this track is the output of the
    window unless it is empty.  When the utterance starts at or after
    the start of the window, the silence is asked for at least the start
    of the window, in milliseconds. *)
Theorem window_track_begins_with_global_offset :
  forall (all : list Segment) (start_time end_time : Q)
         (skipped : list Segment) (seg : Segment) (rest : list Segment)
         (seg_audio : Audio),
    relevant_segments all start_time end_time = skipped ++ seg :: rest ->
    Forall (fun s => placeable s = false) skipped ->
    placeable seg = true ->
    is_empty (translate (strip (seg_text seg))) = false ->
    synthesize (length skipped) (translate (strip (seg_text seg)))
    = Clip seg_audio ->
    len seg_audio <= to_ms (seg_end seg) - to_ms (seg_start seg) ->
    exists tail,
      let s := to_ms (seg_start seg) in
      let track := silent s ++ seg_audio ++ tail in
      combined (correct_timing_loop translate synthesize
                  (skipped ++ seg :: rest)) = track
      /\ _process_segment_with_correct_timing translate synthesize
           all start_time end_time
         = (if len track =? 0 then None else Some track)
      /\ ((start_time <= seg_start seg)%Q -> to_ms start_time <= s).
Proof.
  intros all start_time end_time skipped seg rest seg_audio
         Hrel Hskip Hp Ht Hs Hle.
  set (body := correct_timing_body translate synthesize).
  set (st1 := body (length skipped) seg (hd_error rest) initial_state).
  assert (Hloop :
    correct_timing_loop translate synthesize (skipped ++ seg :: rest)
    = for_enumerate body (S (length skipped)) rest st1).
  { unfold correct_timing_loop; fold body.
    rewrite for_enumerate_split; simpl.
    unfold body at 2.
    rewrite correct_timing_prefix_skipped by assumption; reflexivity. }
  destruct (correct_timing_body_short (length skipped) seg (hd_error rest)
              initial_state seg_audio Hp Ht Hs Hle) as [Hc _].
  fold body in Hc; fold st1 in Hc; simpl in Hc.
  rewrite Z.sub_0_r in Hc.
  destruct (correct_timing_loop_extends translate synthesize rest
              (S (length skipped)) st1) as [tail Htail].
  fold body in Htail.
  exists tail; cbv zeta.
  assert (Htrack :
    combined (correct_timing_loop translate synthesize
                (skipped ++ seg :: rest))
    = silent (to_ms (seg_start seg)) ++ seg_audio ++ tail).
  { rewrite Hloop, Htail, Hc, <- app_assoc; reflexivity. }
  split; [exact Htrack |].
  split.
  - unfold _process_segment_with_correct_timing; rewrite Hrel.
    destruct (skipped ++ seg :: rest) eqn:E.
    + destruct skipped; discriminate.
    + cbv zeta; rewrite Htrack; reflexivity.
  - intros Hin; apply to_ms_le, Hin.
Qed.

End WindowProperties.

(** The window [30, 60) with one utterance from 31 s to 33 s and a clip
    of 1 s: the output starts with silence asked for 31 s, the start of
    the utterance in the recording, and not for 1 s, its offset in the
    window. *)
Lemma window_track_begins_with_global_offset_witness :
  exists tail,
    _process_segment_with_correct_timing (translate_to "Hello.")
      (synthesize_always (Clip (tone 1000))) [late_utterance] 30 60
    = Some (silent 31000 ++ tone 1000 ++ tail)
    /\ to_ms 30 <= 31000.
Proof.
  assert (Hstart : to_ms (seg_start late_utterance) = 31000) by reflexivity.
  assert (Hend : to_ms (seg_end late_utterance) = 33000) by reflexivity.
  assert (Hclip : len (tone 1000) = 1000) by (vm_compute; reflexivity).
  assert (Hle : len (tone 1000)
                <= to_ms (seg_end late_utterance)
                   - to_ms (seg_start late_utterance)).
  { rewrite Hstart, Hend, Hclip; lia. }
  assert (Hin : (30 <= seg_start late_utterance)%Q) by discriminate.
  destruct (window_track_begins_with_global_offset
              (translate_to "Hello.") (synthesize_always (Clip (tone 1000)))
              [late_utterance] 30 60 [] late_utterance [] (tone 1000)
              eq_refl (Forall_nil _) eq_refl eq_refl eq_refl Hle)
    as (tail & _ & Hres & Hspan).
  exists tail; rewrite Hstart in *.
  split; [| exact (Hspan Hin)].
  rewrite Hres.
  assert (Hpos : 0 < len (silent 31000 ++ tone 1000 ++ tail)).
  { rewrite !len_app, len_silent, Hclip; pose proof (len_nonneg tail); lia. }
  destruct (Z.eqb_spec (len (silent 31000 ++ tone 1000 ++ tail)) 0);
    [lia | reflexivity].
Defined.

(** C3, as it is stated, fails: the window [30, 60) starts after 0 and
    its first utterance, from 25 s to 35 s in the recording, has a clip
    of 1 s; the output of the window is silence asked for 25 s and the
    clip, which is not longer than the 30 s of the window. *)
Lemma window_output_shorter_than_its_span :
  (0 < 30)%Q
  /\ relevant_segments [boundary_utterance] 30 60 = [boundary_utterance]
  /\ placeable boundary_utterance = true
  /\ len (tone 1000)
     <= to_ms (seg_end boundary_utterance)
        - to_ms (seg_start boundary_utterance)
  /\ _process_segment_with_correct_timing (translate_to "Hello.")
       (synthesize_always (Clip (tone 1000))) [boundary_utterance] 30 60
     = Some (silent 25000 ++ tone 1000)
  /\ ~ (to_ms (60 - 30) <= len (silent 25000 ++ tone 1000)).
Proof.
  assert (Hclip : len (tone 1000) = 1000).
  { unfold len, tone; rewrite repeat_length; reflexivity. }
  assert (Hs : to_ms (seg_start boundary_utterance) = 25000) by reflexivity.
  assert (He : to_ms (seg_end boundary_utterance) = 35000) by reflexivity.
  assert (Hle : len (tone 1000)
                <= to_ms (seg_end boundary_utterance)
                   - to_ms (seg_start boundary_utterance)).
  { rewrite Hclip, Hs, He; lia. }
  assert (Hlen : len (silent 25000 ++ tone 1000) = 26000).
  { rewrite len_app, len_silent, Hclip; reflexivity. }
  split; [reflexivity |].
  split; [reflexivity |].
  split; [reflexivity |].
  split; [exact Hle |].
  split.
  - unfold _process_segment_with_correct_timing.
    change (relevant_segments [boundary_utterance] 30 60)
      with [boundary_utterance].
    unfold correct_timing_loop; cbn [for_enumerate hd_error tl].
    destruct (correct_timing_body_short (translate_to "Hello.")
                (synthesize_always (Clip (tone 1000))) 0 boundary_utterance
                None initial_state (tone 1000) eq_refl eq_refl eq_refl Hle)
      as [Hc _].
    rewrite Hc, Hs.
    change (combined initial_state) with (silent 0).
    change (current_ms initial_state) with 0.
    change (silent 0) with (@nil Z).
    rewrite Z.sub_0_r; cbn [app].
    rewrite Hlen; reflexivity.
  - rewrite Hlen; change (to_ms (60 - 30)) with 30000; lia.
Qed.

(** ** Failed synthesis in the window aligner *)




(** ** The pause before an utterance *)

(** The two loops that bound the pause insert
    [min (start - cursor) 2000] after a finished sentence and
    [min (start - cursor) 120] after an unfinished one. *)
Lemma pause_before_spec (start_ms : Z) (st : LoopState) :
  pause_before start_ms st
  = Z.min (start_ms - current_ms st)
      (if prev_terminal_or_true st then MAX_PAUSE_MS
       else CONTINUATION_PAUSE_MS).
Proof.
  unfold pause_before, MAX_PAUSE_MS, CONTINUATION_PAUSE_MS.
  destruct (prev_terminal_or_true st); simpl; lia.
Qed.

Lemma insert_pause_spec (start_ms : Z) (st : LoopState) :
  current_ms st < start_ms ->
  combined (insert_pause start_ms st)
  = combined st ++ silent (pause_before start_ms st)
  /\ current_ms (insert_pause start_ms st)
     = current_ms st + pause_before start_ms st.
Proof.
  intros H; unfold insert_pause.
  destruct (Z.gtb_spec start_ms (current_ms st)); [| lia].
  split; reflexivity.
Qed.

(** In both of these loops the track grows, at an utterance that is not
    skipped and starts ahead of the cursor, by that pause first. *)
Lemma bounded_loops_insert_pause
    (translate : string -> string)
    (synthesize : nat -> string -> SynthResult)
    (quiet : Audio -> list bool) (time_offset : Q)
    (idx : nat) (seg : Segment) (next : option Segment) (st : LoopState) :
  (placeable seg = true ->
   current_ms st < to_ms (seg_start seg) ->
   exists rest,
     combined (voice_preservation_body translate synthesize quiet
                 idx seg next st)
     = combined st ++ silent (pause_before (to_ms (seg_start seg)) st)
       ++ rest)
  /\ (to_ms (seg_start seg + time_offset) < to_ms (seg_end seg + time_offset) ->
      is_empty (strip (seg_text seg)) = false ->
      current_ms st < to_ms (seg_start seg + time_offset) ->
      exists rest,
        combined (full_functionality_body translate synthesize time_offset
                    idx seg next st)
        = combined st
          ++ silent (pause_before (to_ms (seg_start seg + time_offset)) st)
          ++ rest).
Proof.
  split.
  - intros Hp Hcur; unfold placeable in Hp; apply negb_true_iff in Hp.
    unfold voice_preservation_body; rewrite Hp.
    destruct (insert_pause_spec _ _ Hcur) as [Hpause _].
    set (st1 := insert_pause (to_ms (seg_start seg)) st) in *.
    match goal with
    | |- exists rest, combined ?r = _ => assert (Hext : extends st1 r)
    end.
    { split_body; auto 6 with align. }
    destruct Hext as [rest Hrest]; exists rest.
    rewrite Hrest, Hpause, <- app_assoc; reflexivity.
  - intros Hlt Htext Hcur.
    unfold full_functionality_body.
    apply Z.leb_gt in Hlt; rewrite Hlt, Htext; cbn [orb].
    destruct (insert_pause_spec _ _ Hcur) as [Hpause _].
    set (st1 := insert_pause (to_ms (seg_start seg + time_offset)) st) in *.
    match goal with
    | |- exists rest, combined ?r = _ => assert (Hext : extends st1 r)
    end.
    { split_body; auto 6 with align.
      all: apply extends_set_prev_en_terminal, place_longer_extends. }
    destruct Hext as [rest Hrest]; exists rest.
    rewrite Hrest, Hpause, <- app_assoc; reflexivity.
Qed.

(** C2 at two inputs of the window aligner.  An utterance that starts
    5 s after the cursor gets 5000 ms of silence before its clip, not
    2000 ms; and after a translated text without final punctuation, an
    utterance that starts 2 s after the cursor gets 2000 ms of silence,
    not 120 ms.  The loops of [_process_segment_with_full_functionality]
    and of [translate_video_with_voice_preservation] insert 2000 ms and
    120 ms at the same inputs. *)
Theorem correct_timing_pause_not_capped :
  let clip1 := synthesize_always (Clip (tone 1000)) in
  (_process_segment_with_correct_timing (translate_to "Hello.") clip1
     [delayed_utterance] 0 30 = Some (silent 5000 ++ tone 1000)
   /\ combined (full_functionality_loop (translate_to "Hello.") clip1 0
                  [delayed_utterance]) = silent 2000 ++ tone 1000
   /\ combined (voice_preservation_loop (translate_to "Hello.") clip1
                  never_quiet [delayed_utterance])
      = silent 2000 ++ tone 1000)
  /\ (ends_terminal "and then" = false
      /\ _process_segment_with_correct_timing (translate_to "and then") clip1
           two_utterances 0 30
         = Some (tone 1000 ++ silent 2000 ++ tone 1000)
      /\ combined (full_functionality_loop (translate_to "and then") clip1 0
                     two_utterances)
         = tone 1000 ++ silent 120 ++ tone 1000
      /\ combined (voice_preservation_loop (translate_to "and then") clip1
                     never_quiet two_utterances)
         = tone 1000 ++ silent 120 ++ tone 1000).
Proof.
  cbv zeta; repeat split; vm_compute; reflexivity.
Qed.

(** ** The duration fitter *)

Lemma add_pauses_succeeds (quiet : Audio -> list bool)
    (audio : Audio) (target : Z) :
  exists fitted, _add_pauses_between_words quiet audio target = Some fitted.
Proof.
  unfold _add_pauses_between_words.
  destruct (target - len audio <? 50); [eexists; reflexivity |].
  destruct (find_quiet (quiet audio)) as [starts ends].
  destruct starts as [| s starts]; [eexists; reflexivity |].
  destruct ends as [| e ends]; [eexists; reflexivity |].
  destruct (widen_pauses audio _ _ _ _) as [new_audio last_end].
  eexists; reflexivity.
Qed.

(** C5, as the code has it. The fitter fails on an empty clip.  On any
    other clip: within 40 ms of the target, or longer than the target,
    the clip is returned as it is; so is a clip that is between 41 and
    49 ms short of the target.  On a clip that is 50 ms or more short
    the fitter succeeds, and when the analysis finds no quiet run in the
    clip the result is the clip followed by one pad of silence, asked
    for the whole of the missing duration. *)
Theorem stretch_pads_or_passes_through :
  forall (quiet : Audio -> list bool) (seg : Audio) (target : Z),
    let cur := len seg in
    let out := _stretch_wav_to_duration quiet seg target in
    (cur = 0 -> out = None)
    /\ (0 < cur ->
        (Z.abs (cur - target) <= 40 -> out = Some seg)
        /\ (target < cur -> out = Some seg)
        /\ (cur + 40 < target < cur + 50 -> out = Some seg)
        /\ (cur + 50 <= target ->
            (exists fitted, out = Some fitted)
            /\ (fst (find_quiet (quiet seg)) = [] ->
                out = Some (seg ++ silent (target - cur))))).
Proof.
  intros quiet seg target cur out; subst cur out.
  unfold _stretch_wav_to_duration.
  split.
  { intros H; rewrite H; reflexivity. }
  intros Hpos.
  destruct (Z.eqb_spec (len seg) 0) as [? | _]; [lia |].
  repeat split.
  - intros H.
    destruct (Z.leb_spec (Z.abs (len seg - target)) 40); [reflexivity | lia].
  - intros H.
    destruct (Z.leb_spec (Z.abs (len seg - target)) 40); [reflexivity |].
    destruct (Z.ltb_spec (len seg) target); [lia | reflexivity].
  - intros H.
    destruct (Z.leb_spec (Z.abs (len seg - target)) 40); [lia |].
    destruct (Z.ltb_spec (len seg) target); [| lia].
    unfold _add_pauses_between_words.
    destruct (Z.ltb_spec (target - len seg) 50); [reflexivity | lia].
  - destruct (Z.leb_spec (Z.abs (len seg - target)) 40); [lia |].
    destruct (Z.ltb_spec (len seg) target); [| lia].
    apply add_pauses_succeeds.
  - intros Hquiet.
    destruct (Z.leb_spec (Z.abs (len seg - target)) 40); [lia |].
    destruct (Z.ltb_spec (len seg) target); [| lia].
    unfold _add_pauses_between_words.
    destruct (Z.ltb_spec (target - len seg) 50); [lia |].
    destruct (find_quiet (quiet seg)) as [starts ends]; simpl in *.
    subst starts; reflexivity.
Qed.

(** A clip of 1 s without a quiet run and the target 1.1 s. *)
Lemma stretch_pads_or_passes_through_witness :
  0 < len (tone 1000)
  /\ len (tone 1000) + 50 <= 1100
  /\ _stretch_wav_to_duration never_quiet (tone 1000) 1100
     = Some (tone 1000 ++ silent (1100 - len (tone 1000))).
Proof.
  assert (Hlen : len (tone 1000) = 1000) by (vm_compute; reflexivity).
  assert (Hpos : 0 < len (tone 1000)) by (rewrite Hlen; lia).
  assert (Hshort : len (tone 1000) + 50 <= 1100) by (rewrite Hlen; lia).
  assert (Hquiet : fst (find_quiet (never_quiet (tone 1000))) = [])
    by (vm_compute; reflexivity).
  split; [exact Hpos |]; split; [exact Hshort |].
  destruct (stretch_pads_or_passes_through never_quiet (tone 1000) 1100)
    as [_ H].
  destruct (H Hpos) as (_ & _ & _ & H50).
  destruct (H50 Hshort) as [_ Hpad].
  exact (Hpad Hquiet).
Defined.

(** C5, as it is stated, fails: a clip of 1000 ms and the target
    1045 ms.  The clip comes back as it is, with or without a quiet run
    in it: 45 ms short of the target, which is neither within 40 ms of
    it nor the target itself. *)
Lemma stretch_leaves_small_deficit :
  _stretch_wav_to_duration never_quiet (tone 1000) 1045 = Some (tone 1000)
  /\ _stretch_wav_to_duration one_quiet_run (tone 1000) 1045
     = Some (tone 1000)
  /\ len (tone 1000) = 1000
  /\ 1045 >= 1000
  /\ ~ (Z.abs (1000 - 1045) <= 40)
  /\ 1000 <> 1045.
Proof.
  repeat split; try (vm_compute; reflexivity); lia.
Qed.

(** With a quiet run the fitter can pass the target: the clip of 1 s with
    the target 1060 ms comes back 1200 ms long. *)
Lemma stretch_can_overshoot :
  option_map len (_stretch_wav_to_duration one_quiet_run (tone 1000) 1060)
  = Some 1200.
Proof. vm_compute; reflexivity. Qed.

(** ** The window controller *)

Lemma choose_segment_duration_pos (total_duration : Q) :
  0 < choose_segment_duration total_duration.
Proof.
  unfold choose_segment_duration.
  repeat match goal with
         | |- context [if ?b then _ else _] => destruct b
         end; lia.
Qed.

Lemma window_start_le (segment_duration : Z) (i j : nat) :
  0 <= segment_duration -> (i <= j)%nat ->
  (window_start segment_duration i <= window_start segment_duration j)%Q.
Proof.
  intros Hd Hij; unfold window_start.
  rewrite <- Zle_Qle; nia.
Qed.

Lemma fold_left_app_concat (files : list Audio) :
  forall init : Audio,
    fold_left (fun combined segment => combined ++ segment) files init
    = init ++ concat files.
Proof.
  induction files as [| f rest IH]; intros init; simpl.
  - rewrite app_nil_r; reflexivity.
  - rewrite IH, app_assoc; reflexivity.
Qed.

Lemma combine_segments_simple_concat (files : list Audio) :
  _combine_segments_simple files
  = if len (concat files) =? 0 then None else Some (concat files).
Proof.
  unfold _combine_segments_simple.
  rewrite fold_left_app_concat; reflexivity.
Qed.

Section ControllerProperties.

Variable translate : string -> string.
Variable synthesize : nat -> nat -> string -> SynthResult.
Variable apply_gain : Z -> Audio -> Audio.
Variable overlay : Audio -> Audio -> Audio.

Variable audio : Audio.
Variable segments : list Segment.
Variable segment_duration : Z.
Variable total_duration : Q.
Hypothesis segment_duration_pos : 0 < segment_duration.

Let active (i : nat) : bool :=
  negb (Qle_bool total_duration (window_start segment_duration i)).

Let outcome (i : nat) : option Audio * list Event :=
  process_window translate synthesize audio segments segment_duration
    total_duration i.

Lemma no_window_after_the_end (a : nat) :
  Qle_bool total_duration (window_start segment_duration a) = true ->
  forall n b, (a <= b)%nat -> filter active (seq b n) = [].
Proof.
  intros Ha n; induction n as [| n IH]; intros b Hab; simpl; [reflexivity |].
  assert (Hb : active b = false).
  { unfold active; apply negb_false_iff, Qle_bool_iff.
    apply Qle_bool_iff in Ha.
    eapply Qle_trans; [exact Ha | apply window_start_le; lia]. }
  rewrite Hb; apply IH; lia.
Qed.

Lemma window_loop_seq (n : nat) :
  forall (a : nat) (files : list Audio) (events : list Event),
    window_loop translate synthesize audio segments segment_duration
      total_duration (seq a n) files events
    = (files ++ files_of (fun i => fst (outcome i)) (filter active (seq a n)),
       events ++ flat_map (fun i => snd (outcome i)) (filter active (seq a n))).
Proof.
  induction n as [| n IH]; intros a files events.
  - simpl; rewrite !app_nil_r; reflexivity.
  - change (seq a (S n)) with (a :: seq (S a) n).
    cbn [window_loop filter].
    destruct (Qle_bool total_duration (window_start segment_duration a))
      eqn:Ea.
    + assert (Hact : active a = false) by (unfold active; rewrite Ea; reflexivity).
      rewrite Hact.
      rewrite (no_window_after_the_end a Ea n (S a)) by lia.
      simpl; rewrite !app_nil_r; reflexivity.
    + assert (Hact : active a = true) by (unfold active; rewrite Ea; reflexivity).
      rewrite Hact.
      unfold files_of; cbn [flat_map].
      fold (outcome a).
      destruct (outcome a) as [out evs] eqn:Eo.
      cbn [fst snd]; rewrite IH; unfold files_of.
      destruct out; rewrite <- ?app_assoc; reflexivity.
Qed.

End ControllerProperties.

Lemma process_window_logs_extraction
    (translate : string -> string)
    (synthesize : nat -> nat -> string -> SynthResult)
    (audio : Audio) (segments : list Segment) (segment_duration : Z)
    (total_duration : Q) (i : nat) :
  exists ok rest,
    snd (process_window translate synthesize audio segments segment_duration
           total_duration i) = EvExtractWindow i ok :: rest.
Proof.
  unfold process_window.
  destruct (_extract_audio_segment _ _ _); [| eexists _, _; reflexivity].
  destruct (_process_segment_with_correct_timing _ _ _ _ _);
    eexists _, _; reflexivity.
Qed.

Lemma run_windows_outcomes
    (translate : string -> string)
    (synthesize : nat -> nat -> string -> SynthResult)
    (inp : RunInput) (audio : Audio) :
  let total := total_duration_of inp in
  let d := choose_segment_duration total in
  let windows := attempted_windows d total (estimated_segments total) in
  let outcome := fun i =>
    process_window translate synthesize audio (all_segments inp) d total i in
  run_windows translate synthesize inp audio
  = (files_of (fun i => fst (outcome i)) windows,
     flat_map (fun i => snd (outcome i)) windows).
Proof.
  intros total d windows outcome.
  unfold run_windows; fold total; fold d.
  unfold attempted_windows in windows.
  rewrite window_loop_seq by apply choose_segment_duration_pos.
  reflexivity.
Qed.

(** C6, as the code has it. The run attempts every window that starts
    before the end of the recording, whatever happened to the windows
    before it.  A window whose extraction or alignment fails leaves no
    file, so it adds nothing to the concatenated track: that track is
    the outputs of the windows that succeeded, one after the other. *)
Theorem failed_windows_are_skipped :
  forall (translate : string -> string)
         (synthesize : nat -> nat -> string -> SynthResult)
         (inp : RunInput) (audio : Audio),
    let total := total_duration_of inp in
    let d := choose_segment_duration total in
    let windows := attempted_windows d total (estimated_segments total) in
    let outcome := fun i =>
      process_window translate synthesize audio (all_segments inp) d total i in
    let run := run_windows translate synthesize inp audio in
    fst run = files_of (fun i => fst (outcome i)) windows
    /\ snd run = flat_map (fun i => snd (outcome i)) windows
    /\ _combine_segments_simple (fst run)
       = (if len (concat (fst run)) =? 0 then None
          else Some (concat (fst run)))
    /\ (forall i, fst (outcome i) = None ->
                  files_of (fun j => fst (outcome j)) [i] = [])
    /\ (forall i, In i windows ->
                  exists ok, In (EvExtractWindow i ok) (snd run)).
Proof.
  intros translate synthesize inp audio total d windows outcome run.
  assert (Hrun : run = (files_of (fun i => fst (outcome i)) windows,
                        flat_map (fun i => snd (outcome i)) windows))
    by apply run_windows_outcomes.
  rewrite Hrun; cbn [fst snd].
  split; [reflexivity |]; split; [reflexivity |].
  split; [apply combine_segments_simple_concat |].
  split.
  - intros i Hi; unfold files_of; simpl; rewrite Hi; reflexivity.
  - intros i Hi.
    destruct (process_window_logs_extraction translate synthesize audio
                (all_segments inp) d total i) as (ok & rest & Hev).
    exists ok; apply in_flat_map; exists i; split; [exact Hi |].
    fold (outcome i) in Hev; rewrite Hev; left; reflexivity.
Qed.

(** The recording of 40 s when no synthesized file can be read: the
    window [0, 30) fails and adds nothing, and the window [30, 40) is
    attempted all the same. *)
Lemma failed_windows_are_skipped_witness :
  let synthesize := fun _ : nat => synthesize_always Unreadable in
  let outcome := fun i =>
    process_window (translate_to "Hello.") synthesize (tone 40000)
      (all_segments run_of_40s) 30 40 i in
  fst (outcome 0%nat) = None
  /\ files_of (fun j => fst (outcome j)) [0%nat] = []
  /\ exists ok,
       In (EvExtractWindow 1 ok)
          (snd (run_windows (translate_to "Hello.") synthesize run_of_40s
                  (tone 40000))).
Proof.
  intros synthesize outcome.
  assert (Hfail : fst (outcome 0%nat) = None) by (vm_compute; reflexivity).
  destruct (failed_windows_are_skipped (translate_to "Hello.") synthesize
              run_of_40s (tone 40000)) as (_ & _ & _ & Hnone & Hall).
  split; [exact Hfail |]; split.
  - apply (Hnone 0%nat); exact Hfail.
  - apply (Hall 1%nat); vm_compute; right; left; reflexivity.
Defined.

(** C6, as it is stated, fails: in that run the window [0, 30) fails,
    and the concatenated track is the 10 s of the window [30, 40), not
    the 40 s of the two windows. *)
Lemma failed_window_leaves_no_silence :
  let synthesize := fun _ : nat => synthesize_always Unreadable in
  let files := fst (run_windows (translate_to "Hello.") synthesize run_of_40s
                      (tone 40000)) in
  fst (process_window (translate_to "Hello.") synthesize (tone 40000)
         (all_segments run_of_40s) 30 40 0) = None
  /\ files = [silent 10000]
  /\ option_map len (_combine_segments_simple files) = Some 10000
  /\ 10000 <> 30000 + 10000.
Proof.
  cbv zeta; repeat split; try (vm_compute; reflexivity); lia.
Qed.

(** ** The bed mix *)

Section WindowTracks.

Variable translate : string -> string.
Variable synthesize : nat -> string -> SynthResult.

Let is_clip (c : Audio) : Prop :=
  exists idx text, synthesize idx text = Clip c.

Lemma correct_timing_body_tts idx seg next st :
  tts_track is_clip (combined st) ->
  tts_track is_clip
    (combined (correct_timing_body translate synthesize idx seg next st)).
Proof.
  intros H; unfold correct_timing_body.
  destruct (_ || _); [exact H |].
  destruct (is_empty _); [simpl; apply tts_silence, H |].
  destruct (synthesize idx _) as [| | seg_audio] eqn:E;
    [simpl; apply tts_silence, H | exact H |].
  assert (Hclip : is_clip seg_audio) by (eexists _, _; exact E).
  destruct (len seg_audio <=? _).
  - destruct (_ >? _); simpl.
    + apply tts_clip; [apply tts_silence, H | exact Hclip].
    + apply tts_clip; assumption.
  - unfold place_longer; destruct (_ <=? _); simpl; apply tts_clip; assumption.
Qed.

Lemma process_segment_gives_tts_track all start_time end_time out :
  _process_segment_with_correct_timing translate synthesize
    all start_time end_time = Some out ->
  tts_track is_clip out.
Proof.
  unfold _process_segment_with_correct_timing.
  destruct (relevant_segments all start_time end_time) as [| seg rest].
  - intros H; injection H as <-.
    apply (tts_silence is_clip []); constructor.
  - cbv zeta; destruct (_ =? 0); [discriminate |].
    intros H; injection H as <-.
    unfold correct_timing_loop.
    apply (for_enumerate_invariant _
             (fun st => tts_track is_clip (combined st))).
    + intros; apply correct_timing_body_tts; assumption.
    + constructor.
Qed.

End WindowTracks.

Section BedMix.

Variable translate : string -> string.
Variable synthesize : nat -> nat -> string -> SynthResult.

Lemma process_window_tts_track audio segments segment_duration
    total_duration i out :
  fst (process_window translate synthesize audio segments
         segment_duration total_duration i) = Some out ->
  tts_track (fun c => exists idx text, synthesize i idx text = Clip c) out.
Proof.
  unfold process_window.
  destruct (_extract_audio_segment _ _ _); [| discriminate].
  destruct (_process_segment_with_correct_timing _ _ _ _ _) as [file |] eqn:E;
    [| discriminate].
  simpl; intros H; injection H as <-.
  eapply process_segment_gives_tts_track; exact E.
Qed.

Lemma run_windows_tts_tracks inp audio file :
  In file (fst (run_windows translate synthesize inp audio)) ->
  exists i,
    tts_track (fun c => exists idx text, synthesize i idx text = Clip c) file.
Proof.
  rewrite run_windows_outcomes; cbn [fst]; unfold files_of.
  intros H; apply in_flat_map in H; destruct H as (i & _ & Hin).
  exists i.
  destruct (fst (process_window _ _ _ _ _ _ i)) as [out |] eqn:E;
    [| destruct Hin].
  destruct Hin as [<- | []].
  eapply process_window_tts_track; exact E.
Qed.

End BedMix.

(** C7, as the code has it. Gain and overlay are applied once, on the
    joined track.  For every run there are, before the gain and the
    overlay are chosen, either nothing to mix, and then the run has no
    final track whatever they are, or a bed and a translated track, and
    then the final track is the overlay of the translated track on the
    bed changed by the gain of -24 dB, whatever they are.  There is
    nothing to mix exactly when no audio was extracted or the window
    outputs, joined, are empty.  Otherwise every window output is made of
    silence and synthesized clips only; the translated track is the
    window outputs joined, after the prosody step if there is prosody
    information; and the bed is the original track, followed by silence
    asked for the missing duration when it is shorter than the translated
    track, cut to the length of the translated track when it is longer. *)
Theorem bed_mix_once_on_the_joined_track :
  forall (translate : string -> string)
         (synthesize : nat -> nat -> string -> SynthResult)
         (inp : RunInput),
  exists parts : option (Audio * Audio),
    (forall (apply_gain : Z -> Audio -> Audio)
            (overlay : Audio -> Audio -> Audio),
        final_audio (translate_long_video_with_optimization translate
                       synthesize apply_gain overlay inp)
        = match parts with
          | Some (bed, tts) => Some (overlay (apply_gain (-24) bed) tts)
          | None => None
          end)
    /\ (parts = None
        <-> match extracted_audio inp with
            | None => True
            | Some audio =>
                len (concat (fst (run_windows translate synthesize inp
                                    audio))) = 0
            end)
    /\ (forall bed tts,
          parts = Some (bed, tts) ->
          exists audio files,
            extracted_audio inp = Some audio
            /\ files = fst (run_windows translate synthesize inp audio)
            /\ (forall file, In file files ->
                  exists i,
                    tts_track
                      (fun c => exists idx text,
                                  synthesize i idx text = Clip c) file)
            /\ tts = match prosody inp with
                     | Some _ =>
                         _apply_prosody_to_audio (concat files)
                           (prosody inp) (probed_video_ms inp)
                     | None => concat files
                     end
            /\ (len audio < len tts ->
                bed = audio ++ silent (len tts - len audio))
            /\ (len tts < len audio -> bed = slice_to audio (len tts))
            /\ (len audio = len tts -> bed = audio)).
Proof.
  intros translate synthesize inp.
  unfold translate_long_video_with_optimization.
  destruct (extracted_audio inp) as [audio |] eqn:Eaudio.
  2: { exists None; split; [reflexivity |].
       split; [split; auto | discriminate]. }
  pose proof (run_windows_tts_tracks translate synthesize inp audio) as Htts.
  destruct (run_windows translate synthesize inp audio)
    as [files window_events] eqn:Erun.
  cbn [fst] in *.
  destruct files as [| file files'].
  { exists None; split; [reflexivity |].
    split; [split; auto | discriminate]. }
  cbv iota.
  set (files := file :: files') in *.
  destruct (Z.eqb_spec (len (concat files)) 0) as [Hzero | Hnonzero].
  { exists None; split.
    - intros apply_gain overlay.
      rewrite combine_segments_simple_concat.
      destruct (Z.eqb_spec (len (concat files)) 0); [reflexivity | lia].
    - split; [split; auto | discriminate]. }
  set (tts := match prosody inp with
              | Some _ =>
                  _apply_prosody_to_audio (concat files) (prosody inp)
                    (probed_video_ms inp)
              | None => concat files
              end).
  exists (Some (match_length audio tts, tts)); split; [| split].
  - intros apply_gain overlay.
    rewrite combine_segments_simple_concat.
    destruct (Z.eqb_spec (len (concat files)) 0); [lia |].
    subst tts; destruct (prosody inp); reflexivity.
  - split; [discriminate | intros H; contradiction].
  - intros bed tts' H; injection H as <- <-.
    exists audio, files.
    split; [reflexivity |]; split; [rewrite Erun; reflexivity |].
    split; [exact Htts |]; split; [reflexivity |].
    unfold match_length.
    destruct (Z.ltb_spec (len audio) (len tts));
      destruct (Z.gtb_spec (len audio) (len tts));
      repeat split; intros; try lia; reflexivity.
Qed.

(** The recording of 3 s: the final track is the overlay of a
    translated track on a bed changed by the gain of -24 dB, for the
    same two tracks whatever the gain and the overlay. *)
Lemma bed_mix_once_on_the_joined_track_witness :
  exists bed tts,
    forall (apply_gain : Z -> Audio -> Audio)
           (overlay : Audio -> Audio -> Audio),
      final_audio (translate_long_video_with_optimization
                     (translate_to "Hello.")
                     (fun _ : nat => synthesize_always (Clip (tone 1500)))
                     apply_gain overlay run_of_3s)
      = Some (overlay (apply_gain (-24) bed) tts).
Proof.
  destruct (bed_mix_once_on_the_joined_track (translate_to "Hello.")
              (fun _ : nat => synthesize_always (Clip (tone 1500)))
              run_of_3s) as (parts & Hfinal & _ & _).
  destruct parts as [[bed tts] |].
  - exists bed, tts; exact Hfinal.
  - specialize (Hfinal attenuate add_tracks).
    vm_compute in Hfinal; discriminate.
Defined.

(** C7, as it is stated, fails: in the recording of 3 s whose
    synthesized file cannot be read the only window fails, the run stops
    before the concatenation, and there is no final track and no bed
    mix. *)
Lemma aborted_run_has_no_bed_mix :
  let r := translate_long_video_with_optimization (translate_to "Hello.")
             (fun _ : nat => synthesize_always Unreadable)
             attenuate add_tracks run_of_3s in
  final_audio r = None
  /\ success r = false
  /\ length (filter is_bed_mix (trace r)) <> 1%nat.
Proof.
  intros r.
  assert (Hrun : run_windows (translate_to "Hello.")
                   (fun _ : nat => synthesize_always Unreadable)
                   run_of_3s (tone 3000)
                 = ([], [EvExtractWindow 0 true; EvProcessWindow 0 false]))
    by (vm_compute; reflexivity).
  subst r; unfold translate_long_video_with_optimization.
  change (extracted_audio run_of_3s) with (Some (tone 3000)).
  cbv beta iota; rewrite Hrun; cbn.
  repeat split; discriminate.
Qed.

(** The events of the run of 40 s with a clip of 1.5 s for its
    utterance. *)
Lemma run_of_40s_trace :
  trace (translate_long_video_with_optimization (translate_to "Hello.")
           (fun _ : nat => synthesize_always (Clip (tone 1500)))
           attenuate add_tracks run_of_40s)
  = [EvExtractWindow 0 true; EvProcessWindow 0 true;
     EvExtractWindow 1 true; EvProcessWindow 1 true;
     EvCombine true; EvProsody; EvBedMix (-24); EvSync true].
Proof. vm_compute; reflexivity. Qed.

(** * Further properties *)

(** ** The aligner of short recordings never compresses *)

Lemma stretch_longer_unchanged (quiet : Audio -> list bool)
    (seg : Audio) (target : Z) :
  0 < len seg -> target < len seg ->
  _stretch_wav_to_duration quiet seg target = Some seg.
Proof.
  intros Hpos Hlt; unfold _stretch_wav_to_duration.
  destruct (Z.eqb_spec (len seg) 0); [lia |].
  destruct (Z.leb_spec (Z.abs (len seg - target)) 40); [reflexivity |].
  destruct (Z.ltb_spec (len seg) target); [lia | reflexivity].
Qed.

(** X2. In the loop of [translate_video_with_voice_preservation] every
    clip on the track is a clip as the synthesizer returned it: the call
    of the fitter on a clip that is too long changes nothing, so the
    clip is placed whole.  The track is made of silence and of such
    clips only. *)
Theorem voice_preservation_places_whole_clips :
  forall (translate : string -> string)
         (synthesize : nat -> string -> SynthResult)
         (quiet : Audio -> list bool) (segments : list Segment),
    let st := voice_preservation_loop translate synthesize quiet segments in
    Forall (fun p => is_synthesized synthesize (clip p)) (plan st)
    /\ tts_track (is_synthesized synthesize) (combined st).
Proof.
  intros translate synthesize quiet segments st; subst st.
  set (P := fun st =>
              Forall (fun p => is_synthesized synthesize (clip p)) (plan st)
              /\ tts_track (is_synthesized synthesize) (combined st)).
  change (P (voice_preservation_loop translate synthesize quiet segments)).
  apply (for_enumerate_invariant _ P).
  2: { split; [constructor | apply tts_empty]. }
  intros idx seg next st Hst; unfold voice_preservation_body.
  destruct (Z.leb_spec (to_ms (seg_end seg)) (to_ms (seg_start seg)))
    as [? | Hru]; [exact Hst |].
  cbn [orb].
  destruct (is_empty (strip (seg_text seg))); [exact Hst |].
  assert (Hp : P (insert_pause (to_ms (seg_start seg)) st)).
  { destruct Hst as [H1 H2]; unfold insert_pause.
    destruct (_ >? _); [| split; assumption].
    split; simpl; [exact H1 | apply tts_silence, H2]. }
  set (st1 := insert_pause (to_ms (seg_start seg)) st) in *.
  destruct (is_empty _); [exact Hp |].
  destruct (synthesize idx _) as [| | seg_audio] eqn:Esyn; try exact Hp.
  assert (Hsyn : is_synthesized synthesize seg_audio)
    by (eexists _, _; exact Esyn).
  assert (Hclip : forall ms, P (set_current_ms ms (add_clip seg_audio st1))).
  { intros ms; destruct Hp as [H1 H2]; split; simpl.
    - apply Forall_app; split; [exact H1 | repeat constructor; exact Hsyn].
    - apply tts_clip; assumption. }
  assert (Hdone : forall st2, P st2 ->
            P (set_prev_en_terminal
                 (ends_terminal (translate (strip (seg_text seg)))) st2))
    by (intros st2 H; exact H).
  apply Hdone.
  destruct (Z.leb_spec (len seg_audio)
              (to_ms (seg_end seg) - to_ms (seg_start seg))).
  { apply Hclip. }
  set (available_gap :=
         match option_map (fun s => to_ms (seg_start s)) next with
         | Some next0 => Z.max 0 (next0 - to_ms (seg_end seg))
         | None => 0
         end).
  assert (Hgap : 0 <= available_gap).
  { subst available_gap; destruct (option_map _ next); lia. }
  destruct (Z.leb_spec (len seg_audio)
              (to_ms (seg_end seg) - to_ms (seg_start seg) + available_gap))
    as [? | Hlong].
  { apply Hclip. }
  rewrite stretch_longer_unchanged by lia.
  apply Hclip.
Qed.

(** ** The window aligner places short clips at their starts *)

Lemma in_order_lower (segments : list Segment) :
  forall lo lo', lo' <= lo -> in_order lo segments -> in_order lo' segments.
Proof.
  destruct segments as [| seg rest]; intros lo lo' Hle H; simpl in *;
    [exact I | split; [lia | apply H]].
Qed.

Lemma correct_timing_loop_at_starts
    (translate : string -> string)
    (synthesize : nat -> string -> SynthResult) (segments : list Segment) :
  forall (idx : nat) (st : LoopState),
    short_clips translate synthesize idx segments ->
    in_order (current_ms st) segments ->
    let st' := for_enumerate (correct_timing_body translate synthesize)
                 idx segments st in
    let planned :=
      track_at_starts translate synthesize idx (current_ms st) segments in
    combined st' = combined st ++ fst planned
    /\ current_ms st' = snd planned
    /\ map clip (plan st')
       = map clip (plan st)
         ++ map clip (plan_at_starts translate synthesize idx segments).
Proof.
  induction segments as [| seg rest IH]; intros idx st Hshort Hord.
  - simpl; rewrite !app_nil_r; repeat split.
  - destruct Hshort as (Hp & Ht & (seg_audio & Hs & Hle) & Hrest).
    destruct Hord as [Hstart Hord].
    cbn [for_enumerate plan_at_starts track_at_starts].
    set (st1 := correct_timing_body translate synthesize idx seg
                  (hd_error rest) st).
    destruct (correct_timing_body_short translate synthesize idx seg
                (hd_error rest) st seg_audio Hp Ht Hs Hle) as [Hc Hm].
    fold st1 in Hc, Hm.
    assert (Hclipfor : clip_for translate synthesize idx seg = seg_audio).
    { unfold clip_for; rewrite Hs; reflexivity. }
    assert (Hplan : map clip (plan st1) = map clip (plan st) ++ [seg_audio]).
    { subst st1; unfold correct_timing_body.
      unfold placeable in Hp; apply negb_true_iff in Hp; rewrite Hp, Ht, Hs.
      destruct (Z.leb_spec (len seg_audio)
                  (to_ms (seg_end seg) - to_ms (seg_start seg))); [| lia].
      destruct (Z.gtb_spec (to_ms (seg_start seg)) (current_ms st)); simpl;
        rewrite map_app; reflexivity. }
    assert (Hord1 : in_order (current_ms st1) rest).
    { eapply in_order_lower; [| exact Hord]; lia. }
    destruct (IH (S idx) st1 Hrest Hord1) as (Hco & Hcu & Hpl).
    cbv zeta in Hco, Hcu, Hpl |- *.
    rewrite Hm in Hco, Hcu; rewrite Hclipfor.
    destruct (track_at_starts translate synthesize (S idx)
                (to_ms (seg_start seg) + len seg_audio) rest)
      as [track final].
    cbn [fst snd] in *.
    split; [| split].
    + rewrite Hco, Hc, <- !app_assoc; reflexivity.
    + exact Hcu.
    + rewrite Hpl, Hplan, <- app_assoc; reflexivity.
Qed.

(** X3. In the window aligner, when the utterances follow one another
    without overlap and every one of them is placed with a clip that is
    not longer than the utterance, each clip is put on the track whole
    and with the cursor on the start of its utterance in the recording:
    the track is, for the utterances in turn, silence asked for the
    distance from the cursor to that start, in milliseconds, and then the
    clip, after which the cursor is the start plus the length of the
    clip. *)
Theorem short_clips_are_placed_at_their_starts :
  forall (translate : string -> string)
         (synthesize : nat -> string -> SynthResult)
         (segments : list Segment),
    short_clips translate synthesize 0 segments ->
    in_order 0 segments ->
    let st := correct_timing_loop translate synthesize segments in
    let planned := track_at_starts translate synthesize 0 0 segments in
    combined st = fst planned
    /\ current_ms st = snd planned
    /\ map clip (plan st)
       = map clip (plan_at_starts translate synthesize 0 segments).
Proof.
  intros translate synthesize segments Hshort Hord.
  unfold correct_timing_loop.
  exact (correct_timing_loop_at_starts translate synthesize segments 0%nat
           initial_state Hshort Hord).
Qed.

(** The two utterances from 0 s to 1 s and from 3 s to 4 s with clips of
    one second: the first clip, silence asked for the 2 s from the end
    of that clip to the start of the second utterance, and the second
    clip; the cursor ends at 4 s. *)
Lemma short_clips_are_placed_at_their_starts_witness :
  let st := correct_timing_loop (translate_to "Hello.")
              (synthesize_always (Clip (tone 1000))) two_utterances in
  combined st = silent 0 ++ tone 1000 ++ silent 2000 ++ tone 1000 ++ []
  /\ current_ms st = 4000.
Proof.
  assert (Hlen : len (tone 1000) = 1000) by (vm_compute; reflexivity).
  assert (Hshort : short_clips (translate_to "Hello.")
                     (synthesize_always (Clip (tone 1000))) 0 two_utterances).
  { simpl; repeat split; try reflexivity;
      (exists (tone 1000); split; [reflexivity |]);
      rewrite Hlen; vm_compute; discriminate. }
  assert (Hord : in_order 0 two_utterances).
  { simpl; repeat split; vm_compute; discriminate. }
  destruct (short_clips_are_placed_at_their_starts (translate_to "Hello.")
              (synthesize_always (Clip (tone 1000))) two_utterances
              Hshort Hord) as (Hco & Hcu & _).
  split; [rewrite Hco | rewrite Hcu]; vm_compute; reflexivity.
Defined.

(** ** The quiet runs of the fitter *)

Lemma runs_chain_grow (runs : list (Z * Z)) :
  forall lo hi hi', runs_chain lo runs hi -> hi <= hi' -> runs_chain lo runs hi'.
Proof.
  induction runs as [| [s e] rest IH]; intros lo hi hi' H Hle; simpl in *.
  - lia.
  - destruct H as (H1 & H2 & H3); repeat split; try assumption.
    eapply IH; eassumption.
Qed.

Lemma runs_chain_snoc (runs : list (Z * Z)) (s e : Z) :
  forall lo hi, runs_chain lo runs hi -> hi <= s -> s < e ->
                runs_chain lo (runs ++ [(s, e)]) (e + 1).
Proof.
  induction runs as [| [s0 e0] rest IH]; intros lo hi H Hs He; simpl in *.
  - repeat split; lia.
  - destruct H as (H1 & H2 & H3); repeat split; try assumption.
    eapply IH; eassumption.
Qed.

Lemma combine_snoc {A B : Type} (l : list A) (l' : list B) (a : A) (b : B) :
  length l = length l' ->
  List.combine (l ++ [a]) (l' ++ [b]) = List.combine l l' ++ [(a, b)].
Proof.
  revert l'; induction l as [| x l IH]; intros [| y l'] H; simpl in *;
    try discriminate; [reflexivity |].
  rewrite IH by lia; reflexivity.
Qed.

Lemma scan_quiet_state (flags : list bool) :
  forall (i : Z) (sc : QuietScan),
    scan_state sc i ->
    scan_state (scan_quiet i flags sc) (i + Z.of_nat (length flags)).
Proof.
  induction flags as [| f rest IH]; intros i sc H.
  - simpl; rewrite Z.add_0_r; exact H.
  - cbn [scan_quiet length].
    replace (i + Z.of_nat (S (length rest)))
      with (i + 1 + Z.of_nat (length rest)) by lia.
    apply IH; unfold scan_state in *.
    destruct f, (in_quiet sc) eqn:E; cbn [andb negb in_quiet quiet_starts quiet_ends].
    + rewrite E; destruct H as (starts & s & H1 & H2 & H3 & H4).
      exists starts, s; repeat split; try assumption; lia.
    + destruct H as [H1 H2].
      exists (quiet_starts sc), i; repeat split; try assumption; lia.
    + destruct H as (starts & s & H1 & H2 & H3 & H4).
      rewrite H1, length_app, length_app; simpl; split; [lia |].
      rewrite combine_snoc by assumption.
      eapply runs_chain_snoc; [exact H3 | lia | lia].
    + rewrite E; destruct H as [H1 H2]; split; [exact H1 |].
      eapply runs_chain_grow; [exact H2 | lia].
Qed.

Lemma find_quiet_chain (flags : list bool) :
  length (fst (find_quiet flags)) = length (snd (find_quiet flags))
  /\ runs_chain 0
       (List.combine (fst (find_quiet flags)) (snd (find_quiet flags)))
       (Z.of_nat (length flags) + 1).
Proof.
  unfold find_quiet.
  pose proof (scan_quiet_state flags 0
                {| quiet_starts := []; quiet_ends := []; in_quiet := false |})
    as H.
  assert (Hinit : scan_state
                    {| quiet_starts := []; quiet_ends := [];
                       in_quiet := false |} 0)
    by (split; simpl; [reflexivity | lia]).
  specialize (H Hinit); rewrite Z.add_0_l in H.
  set (sc := scan_quiet 0 flags _) in *.
  unfold scan_state in H; cbn [fst snd].
  destruct (in_quiet sc).
  - destruct H as (starts & s & H1 & H2 & H3 & H4).
    rewrite H1, !length_app; simpl; split; [lia |].
    rewrite combine_snoc by assumption.
    eapply runs_chain_snoc; [exact H3 | lia | lia].
  - destruct H as [H1 H2]; split; [exact H1 |].
    eapply runs_chain_grow; [exact H2 | lia].
Qed.

(** X4. The scan for quiet runs in [_add_pauses_between_words] gives as
    many ends as starts; its runs are not empty, each begins after the
    end of the run before it, and all lie between 0 and the number of
    samples. *)
Theorem find_quiet_runs_in_order :
  forall (flags : list bool),
    let '(starts, ends) := find_quiet flags in
    length starts = length ends
    /\ runs_chain 0 (List.combine starts ends) (Z.of_nat (length flags) + 1).
Proof.
  intros flags.
  pose proof (find_quiet_chain flags) as H.
  destruct (find_quiet flags) as [starts ends]; exact H.
Qed.

(** ** How long the fitter can make a clip *)

Lemma runs_chain_lower (runs : list (Z * Z)) :
  forall lo lo' hi, lo' <= lo -> runs_chain lo runs hi ->
                    runs_chain lo' runs hi.
Proof.
  destruct runs as [| [s e] rest]; intros lo lo' hi Hle H; simpl in *.
  - lia.
  - destruct H as (H1 & H2 & H3); repeat split; [lia | assumption | assumption].
Qed.

Lemma widen_pauses_bound (audio : Audio) (avg : Z) (regions : list (Z * Z)) :
  forall (new_audio : Audio) (last_end hi bound : Z),
    0 <= last_end ->
    runs_chain last_end regions hi ->
    len new_audio <= Z.min last_end (len audio) + bound ->
    len (fst (widen_pauses audio avg regions new_audio last_end))
    <= Z.min (snd (widen_pauses audio avg regions new_audio last_end))
             (len audio)
       + bound + 200 * Z.of_nat (length regions)
    /\ 0 <= snd (widen_pauses audio avg regions new_audio last_end).
Proof.
  induction regions as [| [s e] rest IH];
    intros new_audio last_end hi bound Hlast Hchain Hlen.
  - simpl; lia.
  - destruct Hchain as (Hs & He & Hrest).
    cbn [widen_pauses length].
    set (new1 := if s >? last_end
                 then new_audio ++ slice audio last_end s else new_audio).
    assert (H1 : len new1 <= Z.min s (len audio) + bound).
    { subst new1; destruct (Z.gtb_spec s last_end).
      - rewrite len_app, len_slice by assumption; lia.
      - lia. }
    set (new2 := new1 ++ silent (Z.min (e - s + avg) 200)).
    assert (H2 : len new2 <= Z.min e (len audio) + (bound + 200)).
    { subst new2; rewrite len_app, len_silent; lia. }
    assert (Hrest' : runs_chain e rest hi)
      by (eapply runs_chain_lower; [| exact Hrest]; lia).
    destruct (IH new2 e hi (bound + 200) ltac:(lia) Hrest' H2) as [Ha Hb].
    split; [| exact Hb].
    rewrite Nat2Z.inj_succ; lia.
Qed.

(** X5. A clip the fitter returns is never longer than the larger of the
    target and the clip with 200 ms for each quiet run found in it. *)
Theorem stretch_result_is_bounded :
  forall (quiet : Audio -> list bool) (seg : Audio) (target : Z)
         (fitted : Audio),
    _stretch_wav_to_duration quiet seg target = Some fitted ->
    len fitted
    <= Z.max target
         (len seg
          + 200 * Z.of_nat (length (fst (find_quiet (quiet seg))))).
Proof.
  intros quiet seg target fitted.
  unfold _stretch_wav_to_duration.
  destruct (len seg =? 0); [discriminate |].
  assert (Hsame : Some seg = Some fitted ->
            len fitted
            <= Z.max target
                 (len seg
                  + 200 * Z.of_nat (length (fst (find_quiet (quiet seg)))))).
  { intros H; injection H as <-; lia. }
  destruct (Z.abs (len seg - target) <=? 40); [exact Hsame |].
  destruct (len seg <? target); [| exact Hsame].
  unfold _add_pauses_between_words.
  destruct (target - len seg <? 50); [exact Hsame |].
  pose proof (find_quiet_chain (quiet seg)) as Hchain.
  destruct (find_quiet (quiet seg)) as [starts ends]; cbn [fst snd] in *.
  destruct Hchain as [Hsame_len Hchain].
  assert (Hpad : Some (seg ++ silent (target - len seg)) = Some fitted ->
            len fitted
            <= Z.max target (len seg + 200 * Z.of_nat (length starts))).
  { intros H; injection H as <-; rewrite len_app, len_silent; lia. }
  destruct starts as [| s starts]; [exact Hpad |].
  destruct ends as [| e ends]; [exact Hpad |].
  set (avg := Z.max 30 (Z.min _ 150)).
  pose proof (widen_pauses_bound seg avg
                (List.combine (s :: starts) (e :: ends)) (silent 0) 0
                (Z.of_nat (length (quiet seg)) + 1) 0
                ltac:(lia) Hchain) as Hw.
  assert (H0 : len (silent 0) <= Z.min 0 (len seg) + 0).
  { rewrite len_silent; pose proof (len_nonneg seg); lia. }
  specialize (Hw H0).
  destruct (widen_pauses seg avg _ (silent 0) 0) as [new_audio last_end].
  cbn [fst snd] in Hw; destruct Hw as [Hw Hlast].
  rewrite length_combine, <- Hsame_len, Nat.min_id in Hw.
  set (grown := if last_end <? len seg
                then new_audio ++ slice_from seg last_end else new_audio).
  assert (Hgrown : len grown
                   <= len seg + 200 * Z.of_nat (length (s :: starts))).
  { subst grown; destruct (Z.ltb_spec last_end (len seg)).
    - unfold slice_from; rewrite len_app, len_slice by assumption; lia.
    - lia. }
  destruct (Z.ltb_spec (len grown) target); intros Heq; injection Heq as <-.
  - rewrite len_app, len_silent; lia.
  - lia.
Qed.

(** The clip of 1 s with one quiet run and the target 1060 ms: the bound
    is 1200 ms (and the fitter reaches it). *)
Lemma stretch_result_is_bounded_witness :
  exists fitted,
    _stretch_wav_to_duration one_quiet_run (tone 1000) 1060 = Some fitted
    /\ len fitted <= 1200.
Proof.
  destruct (_stretch_wav_to_duration one_quiet_run (tone 1000) 1060)
    as [fitted |] eqn:E.
  - exists fitted; split; [reflexivity |].
    apply stretch_result_is_bounded in E.
    assert (Hbound :
      Z.max 1060
        (len (tone 1000)
         + 200 * Z.of_nat
                   (length (fst (find_quiet (one_quiet_run (tone 1000))))))
      = 1200) by (vm_compute; reflexivity).
    rewrite Hbound in E; exact E.
  - vm_compute in E; discriminate.
Defined.

(** ** The speaker reference *)

Lemma longest_range_fold (rest : list (Z * Z)) :
  forall best,
    let sel := fold_left
                 (fun best r => if range_length best <? range_length r
                                then r else best) rest best in
    (sel = best \/ In sel rest)
    /\ range_length best <= range_length sel
    /\ (forall r, In r rest -> range_length r <= range_length sel).
Proof.
  induction rest as [| r rest IH]; intros best; cbn [fold_left].
  - cbv zeta; repeat split; [left; reflexivity | lia | intros r []].
  - set (best' := if range_length best <? range_length r then r else best).
    destruct (IH best') as (Hin & Hbest & Hall).
    assert (Hb : range_length best <= range_length best'
                 /\ range_length r <= range_length best'
                 /\ (best' = best \/ best' = r)).
    { subst best'; destruct (Z.ltb_spec (range_length best) (range_length r));
        repeat split; try lia; auto. }
    destruct Hb as (Hb1 & Hb2 & Hb3).
    cbv zeta; repeat split.
    + destruct Hin as [-> | Hin]; [| right; right; exact Hin].
      destruct Hb3 as [-> | ->]; [left; reflexivity | right; left; reflexivity].
    + lia.
    + intros r' [<- | Hr']; [lia | apply Hall, Hr'].
Qed.

(** X6. The window of the speaker reference, for a speech range with
    [0 <= start <= end] and limits with [0 <= min <= max]: it starts at
    or after 0 and is at most [max_duration_ms] long.  A range longer
    than the maximum is cropped to a window of the maximum exactly that
    lies inside the range; any other range lies inside its window, and a
    range shorter than the minimum is widened to the minimum exactly
    when there is room for the left half before it. *)
Theorem reference_window_geometry :
  forall (start end_ min_duration_ms max_duration_ms : Z),
    0 <= start <= end_ ->
    0 <= min_duration_ms <= max_duration_ms ->
    let duration := end_ - start in
    let '(s, e) :=
      reference_window (start, end_) min_duration_ms max_duration_ms in
    0 <= s <= e
    /\ e - s <= max_duration_ms
    /\ (max_duration_ms < duration ->
        start <= s /\ e <= end_ /\ e - s = max_duration_ms)
    /\ (duration <= max_duration_ms -> s <= start /\ end_ <= e)
    /\ (duration < min_duration_ms ->
        (min_duration_ms - duration) / 2 <= start ->
        e - s = min_duration_ms).
Proof.
  intros start end_ mn mx Hrange Hlim duration.
  unfold reference_window; fold duration.
  destruct (Z.gtb_spec duration mx) as [Hlong | Hnot].
  - pose proof (Z.div_mod duration 2 ltac:(lia)) as Hd.
    pose proof (Z.mod_pos_bound duration 2 ltac:(lia)) as Hdm.
    pose proof (Z.div_mod mx 2 ltac:(lia)) as Hm.
    pose proof (Z.mod_pos_bound mx 2 ltac:(lia)) as Hmm.
    assert (Hhalf : mx / 2 <= duration / 2)
      by (apply Z.div_le_mono; lia).
    subst duration; repeat split; intros; lia.
  - destruct (Z.ltb_spec duration mn) as [Hshort | Hfits].
    + pose proof (Z.div_mod (mn - duration) 2 ltac:(lia)) as Hd.
      pose proof (Z.mod_pos_bound (mn - duration) 2 ltac:(lia)) as Hdm.
      subst duration; repeat split; intros; lia.
    + subst duration; repeat split; intros; lia.
Qed.

(** A speech range of 12 s, from 3 s to 15 s, with the limits 4 s and
    10 s: the window is the 10 s from 4 s to 14 s. *)
Lemma reference_window_geometry_witness :
  reference_window (3000, 15000) 4000 10000 = (4000, 14000)
  /\ 3000 <= 4000 /\ 14000 <= 15000.
Proof.
  pose proof (reference_window_geometry 3000 15000 4000 10000
                ltac:(lia) ltac:(lia)) as H.
  cbv zeta in H.
  destruct (reference_window (3000, 15000) 4000 10000) as [s e] eqn:E.
  destruct H as (_ & _ & Hcrop & _).
  destruct (Hcrop ltac:(lia)) as (H1 & H2 & H3).
  vm_compute in E; injection E as <- <-.
  repeat split; lia.
Defined.

Lemma reference_window_bounds (start end_ mn mx : Z) :
  0 <= start <= end_ -> 0 <= mn <= mx ->
  0 <= fst (reference_window (start, end_) mn mx)
       <= snd (reference_window (start, end_) mn mx)
  /\ snd (reference_window (start, end_) mn mx)
     - fst (reference_window (start, end_) mn mx) <= mx.
Proof.
  intros Hrange Hlim; unfold reference_window.
  destruct (Z.gtb_spec (end_ - start) mx); cbn [fst snd]; [lia |].
  destruct (Z.ltb_spec (end_ - start) mn); cbn [fst snd]; [| lia].
  pose proof (Z.div_mod (mn - (end_ - start)) 2 ltac:(lia)).
  pose proof (Z.mod_pos_bound (mn - (end_ - start)) 2 ltac:(lia)).
  lia.
Qed.

(** X7. [extract_speaker_reference] returns nothing exactly when there
    is no speech range, in the prosody information or detected.  Else,
    for ranges with [0 <= start <= end] and limits with
    [0 <= min <= max], the reference is cut around a longest range, it
    is a contiguous part of the track, and it is at most
    [max_duration_ms] long. *)
Theorem speaker_reference_from_longest_range :
  forall (audio : Audio) (prosody_info : option ProsodyInfo)
         (detected : list (Z * Z)) (min_duration_ms max_duration_ms : Z),
    let ranges :=
      match prosody_info with
      | Some info =>
          match nonsilent_ranges info with
          | [] => detected
          | ranges => ranges
          end
      | None => detected
      end in
    0 <= min_duration_ms <= max_duration_ms ->
    Forall (fun r => 0 <= fst r <= snd r) ranges ->
    match extract_speaker_reference audio prosody_info detected
            min_duration_ms max_duration_ms with
    | None => ranges = []
    | Some reference =>
        exists selected,
          In selected ranges
          /\ (forall r, In r ranges ->
                        range_length r <= range_length selected)
          /\ reference
             = slice audio
                 (fst (reference_window selected min_duration_ms
                         max_duration_ms))
                 (snd (reference_window selected min_duration_ms
                         max_duration_ms))
          /\ len reference <= max_duration_ms
          /\ exists before after, audio = before ++ reference ++ after
    end.
Proof.
  intros audio prosody_info detected mn mx ranges Hlim Hwf.
  unfold extract_speaker_reference; fold ranges.
  destruct ranges as [| r rest] eqn:Er; [reflexivity |].
  cbn [longest_range].
  destruct (longest_range_fold rest r) as (Hin & _ & Hall).
  set (selected := fold_left _ rest r) in *.
  assert (Hsel : In selected (r :: rest)).
  { destruct Hin as [-> | Hin]; [left; reflexivity | right; exact Hin]. }
  assert (Hmax : forall r', In r' (r :: rest) ->
                            range_length r' <= range_length selected).
  { intros r' [<- | Hr'].
    - destruct (longest_range_fold rest r) as (_ & Hbest & _); exact Hbest.
    - apply Hall, Hr'. }
  rewrite Forall_forall in Hwf; pose proof (Hwf selected Hsel) as Hs.
  destruct selected as [start end_]; cbn [fst snd] in Hs.
  destruct (reference_window_bounds start end_ mn mx Hs Hlim) as [Hb Hl].
  destruct (reference_window (start, end_) mn mx) as [s e] eqn:Ew.
  cbn [fst snd] in *.
  exists (start, end_); rewrite Ew; cbn [fst snd].
  repeat split; try assumption.
  - rewrite len_slice by lia; lia.
  - destruct (slice_infix audio s e ltac:(lia)) as (before & after & H & _).
    exists before, after; exact H.
Qed.

(** A track of 20 s with speech from 3 s to 15 s and from 16 s to 17 s:
    the reference is 10 s long. *)
Lemma speaker_reference_from_longest_range_witness :
  option_map len
    (extract_speaker_reference (tone 20000) None
       [(3000, 15000); (16000, 17000)] 4000 10000)
  = Some 10000.
Proof.
  pose proof (speaker_reference_from_longest_range (tone 20000) None
                [(3000, 15000); (16000, 17000)] 4000 10000
                ltac:(lia)) as H.
  cbv zeta in H.
  assert (Hwf : Forall (fun r : Z * Z => 0 <= fst r <= snd r)
                  [(3000, 15000); (16000, 17000)]).
  { repeat constructor; simpl; lia. }
  specialize (H Hwf).
  destruct (extract_speaker_reference (tone 20000) None
              [(3000, 15000); (16000, 17000)] 4000 10000)
    as [reference |] eqn:E; [| discriminate H].
  destruct H as (selected & _ & _ & _ & Hlen & _).
  vm_compute in E; injection E as <-.
  vm_compute; reflexivity.
Defined.

(** ** When a long run fails, and how long its track is *)

Section LongRun.

Variable translate : string -> string.
Variable synthesize : nat -> nat -> string -> SynthResult.
Variable apply_gain : Z -> Audio -> Audio.
Variable overlay : Audio -> Audio -> Audio.

(** X8. A run of the long-video pipeline has no final track exactly when
    the audio cannot be extracted from the video or the windows leave
    no audio at all (no window succeeds, or every output is empty); and
    it returns [True] exactly when it has a final track and the remux
    succeeds. *)
Theorem long_run_fails_without_audio :
  forall (inp : RunInput),
    let r := translate_long_video_with_optimization translate synthesize
               apply_gain overlay inp in
    (final_audio r = None
     <-> match extracted_audio inp with
         | None => True
         | Some audio =>
             concat (fst (run_windows translate synthesize inp audio)) = []
         end)
    /\ (success r = true <-> final_audio r <> None /\ sync_ok inp = true).
Proof.
  intros inp r; subst r; unfold translate_long_video_with_optimization.
  destruct (extracted_audio inp) as [audio |].
  2: { cbn; split; split; try discriminate; try reflexivity.
       intros [H _]; congruence. }
  destruct (run_windows translate synthesize inp audio)
    as [files events] eqn:Erun; cbn [fst].
  destruct files as [| file files'] eqn:Ef.
  { cbn; split; split; try discriminate; try reflexivity.
    intros [H _]; congruence. }
  rewrite <- Ef; rewrite combine_segments_simple_concat.
  destruct (Z.eqb_spec (len (concat files)) 0) as [H0 | H0].
  - cbn; split; split; try discriminate; try reflexivity.
    + intros _; destruct (concat files); [reflexivity | discriminate H0].
    + intros [H _]; congruence.
  - destruct (prosody inp); cbn [final_audio success].
    + split; split; try discriminate.
      * intros H; rewrite H in H0; contradiction H0; reflexivity.
      * intros H; split; [discriminate | exact H].
      * intros [_ H]; exact H.
    + split; split; try discriminate.
      * intros H; rewrite H in H0; contradiction H0; reflexivity.
      * intros H; split; [discriminate | exact H].
      * intros [_ H]; exact H.
Qed.

End LongRun.

Lemma apply_prosody_upper_bound
    (synthesized_audio : Audio) (info : ProsodyInfo) (probed_ms : option Z) :
  0 < target_ms info probed_ms ->
  len (_apply_prosody_to_audio synthesized_audio (Some info) probed_ms)
  <= target_ms info probed_ms + 50.
Proof.
  intros Hpos; unfold _apply_prosody_to_audio, force_duration.
  set (a := apply_pauses (nonsilent_ranges info) synthesized_audio).
  set (target := target_ms info probed_ms) in *.
  destruct (Z.ltb_spec 0 target) as [_ | ?]; [| lia].
  destruct (Z.ltb_spec (len a) target).
  - rewrite len_app, len_silent; lia.
  - destruct (Z.gtb_spec (len a) (target + 50)).
    + rewrite len_slice_to; lia.
    + lia.
Qed.

(** X9. In a run of the long-video pipeline that has prosody
    information with a positive target length and reaches the mix, the
    translated track that is mixed is the joined window outputs after
    the prosody step, and it is at most 50 ms longer than the target,
    however long the joined window outputs are. *)
Theorem long_run_track_is_cut_to_target :
  forall (translate : string -> string)
         (synthesize : nat -> nat -> string -> SynthResult)
         (apply_gain : Z -> Audio -> Audio)
         (overlay : Audio -> Audio -> Audio)
         (inp : RunInput) (info : ProsodyInfo) (mixed : Audio),
    prosody inp = Some info ->
    0 < target_ms info (probed_video_ms inp) ->
    final_audio (translate_long_video_with_optimization translate synthesize
                   apply_gain overlay inp) = Some mixed ->
    exists audio bed tts,
      extracted_audio inp = Some audio
      /\ tts = _apply_prosody_to_audio
                 (concat (fst (run_windows translate synthesize inp audio)))
                 (Some info) (probed_video_ms inp)
      /\ mixed = overlay (apply_gain (-24) bed) tts
      /\ len tts <= target_ms info (probed_video_ms inp) + 50.
Proof.
  intros translate synthesize apply_gain overlay inp info mixed
         Hinfo Htarget.
  unfold translate_long_video_with_optimization.
  destruct (extracted_audio inp) as [audio |]; [| discriminate].
  destruct (run_windows translate synthesize inp audio) as [files events]
    eqn:Erun.
  destruct files as [| file files']; [discriminate |].
  rewrite combine_segments_simple_concat.
  destruct (len (concat (file :: files')) =? 0); [discriminate |].
  rewrite Hinfo; cbn [final_audio].
  intros H; injection H as <-.
  set (tts := _apply_prosody_to_audio (concat (file :: files')) (Some info)
                (probed_video_ms inp)).
  exists audio, (match_length audio tts), tts.
  split; [reflexivity |].
  split; [rewrite Erun; reflexivity |].
  split; [reflexivity |].
  apply apply_prosody_upper_bound, Htarget.
Qed.

(** The recording of 3 s whose utterance has a clip of 1.5 s: the track
    that is mixed is at most 3050 ms long. *)
Lemma long_run_track_is_cut_to_target_witness :
  exists bed tts,
    final_audio
      (translate_long_video_with_optimization (translate_to "Hello.")
         (fun _ : nat => synthesize_always (Clip (tone 1500)))
         attenuate add_tracks run_of_3s)
    = Some (add_tracks (attenuate (-24) bed) tts)
    /\ len tts <= 3000 + 50.
Proof.
  destruct (final_audio
              (translate_long_video_with_optimization (translate_to "Hello.")
                 (fun _ : nat => synthesize_always (Clip (tone 1500)))
                 attenuate add_tracks run_of_3s)) as [mixed |] eqn:E.
  - destruct (long_run_track_is_cut_to_target (translate_to "Hello.")
                (fun _ : nat => synthesize_always (Clip (tone 1500)))
                attenuate add_tracks run_of_3s
                {| duration := 3; nonsilent_ranges := [] |} mixed
                eq_refl eq_refl E)
      as (audio & bed & tts & _ & _ & Hmixed & Hlen).
    exists bed, tts; split; [rewrite Hmixed; reflexivity | exact Hlen].
  - vm_compute in E; discriminate.
Defined.

(** ** The windows tile the recording *)

Lemma floor_div_bounds (t c : Q) :
  (0 < c)%Q ->
  (inject_Z (Qfloor (t / c)) * c <= t)%Q
  /\ (t < inject_Z (Qfloor (t / c) + 1) * c)%Q.
Proof.
  intros Hc.
  assert (Hne : ~ (c == 0)%Q).
  { intros H; rewrite H in Hc; revert Hc; apply Qlt_irrefl. }
  assert (Hx : (t / c * c == t)%Q).
  { rewrite Qmult_comm; apply Qmult_div_r, Hne. }
  split.
  - rewrite <- Hx at 2; apply Qmult_le_r; [exact Hc | apply Qfloor_le].
  - rewrite <- Hx at 1; apply Qmult_lt_r; [exact Hc | apply Qlt_floor].
Qed.

Section Tiling.

Variable segment_duration : Z.
Variable total_duration : Q.
Hypothesis segment_duration_pos : 0 < segment_duration.

Let n : nat :=
  Z.to_nat (py_int (total_duration / inject_Z segment_duration) + 1).

Let windows : list nat := attempted_windows segment_duration total_duration n.

Lemma inject_duration_pos : (0 < inject_Z segment_duration)%Q.
Proof. change 0%Q with (inject_Z 0); rewrite <- Zlt_Qlt; lia. Qed.

Lemma window_start_mult (i : nat) :
  window_start segment_duration i
  = (inject_Z (Z.of_nat i) * inject_Z segment_duration)%Q.
Proof. unfold window_start; apply inject_Z_mult. Qed.

Lemma window_before_end_is_counted (i : nat) :
  (window_start segment_duration i < total_duration)%Q -> (i < n)%nat.
Proof.
  intros H; rewrite window_start_mult in H.
  apply Qlt_shift_div_l in H; [| apply inject_duration_pos].
  set (x := (total_duration / inject_Z segment_duration)%Q) in *.
  assert (H0 : (0 <= x)%Q).
  { apply Qlt_le_weak; eapply Qle_lt_trans; [| exact H].
    change 0%Q with (inject_Z 0); rewrite <- Zle_Qle; lia. }
  assert (Hint : py_int x = Qfloor x).
  { unfold py_int; apply Qle_bool_iff in H0; rewrite H0; reflexivity. }
  pose proof (Qlt_floor x) as Hfl.
  assert (Hlt : (inject_Z (Z.of_nat i) < inject_Z (Qfloor x + 1))%Q)
    by (eapply Qlt_trans; eassumption).
  rewrite <- Zlt_Qlt in Hlt.
  subst n; fold x; rewrite Hint; lia.
Qed.

Lemma attempted_iff (i : nat) :
  In i windows
  <-> (window_start segment_duration i < total_duration)%Q.
Proof.
  unfold windows, attempted_windows; rewrite filter_In, in_seq.
  rewrite negb_true_iff; split.
  - intros [_ H]; apply Qnot_le_lt; intros Hle.
    apply Qle_bool_iff in Hle; congruence.
  - intros H; split.
    + pose proof (window_before_end_is_counted i H); lia.
    + destruct (Qle_bool total_duration (window_start segment_duration i))
        eqn:E; [| reflexivity].
      apply Qle_bool_iff in E; exfalso; revert E; apply Qlt_not_le, H.
Qed.

Lemma window_end_next (i : nat) :
  window_end segment_duration total_duration i
  = py_min (window_start segment_duration (S i)) total_duration.
Proof.
  unfold window_end, window_start; do 3 f_equal; lia.
Qed.

Lemma windows_cover (t : Q) :
  (0 <= t)%Q -> (t < total_duration)%Q ->
  exists i,
    In i windows
    /\ (window_start segment_duration i <= t)%Q
    /\ (t < window_end segment_duration total_duration i)%Q.
Proof.
  intros H0 Ht.
  destruct (floor_div_bounds t (inject_Z segment_duration)
              inject_duration_pos) as [Hlo Hhi].
  set (k := Qfloor (t / inject_Z segment_duration)) in *.
  assert (Hk : 0 <= k).
  { subst k; change 0 with (Qfloor 0); apply Qfloor_resp_le.
    apply Qle_shift_div_l; [apply inject_duration_pos |].
    rewrite Qmult_0_l; exact H0. }
  exists (Z.to_nat k).
  assert (Hstart : window_start segment_duration (Z.to_nat k)
                   = (inject_Z k * inject_Z segment_duration)%Q).
  { rewrite window_start_mult, Z2Nat.id by exact Hk; reflexivity. }
  assert (Hnext : window_start segment_duration (S (Z.to_nat k))
                  = (inject_Z (k + 1) * inject_Z segment_duration)%Q).
  { rewrite window_start_mult; do 2 f_equal; lia. }
  split; [| split].
  - apply attempted_iff; rewrite Hstart.
    eapply Qle_lt_trans; eassumption.
  - rewrite Hstart; exact Hlo.
  - rewrite window_end_next, Hnext; unfold py_min.
    destruct (Qltb total_duration _); assumption.
Qed.

End Tiling.

Lemma py_min_le_l (a b : Q) : (py_min a b <= a)%Q.
Proof.
  unfold py_min; destruct (Qltb b a) eqn:E; [| apply Qle_refl].
  apply Qltb_lt in E; apply Qlt_le_weak, E.
Qed.

Lemma py_min_le_r (a b : Q) : (py_min a b <= b)%Q.
Proof.
  unfold py_min; destruct (Qltb b a) eqn:E; [apply Qle_refl |].
  apply Qnot_lt_le; intros H; apply Qltb_lt in H; congruence.
Qed.

Lemma py_min_gt (a b c : Q) : (c < a)%Q -> (c < b)%Q -> (c < py_min a b)%Q.
Proof. intros Ha Hb; unfold py_min; destruct (Qltb b a); assumption. Qed.

Lemma window_start_succ (segment_duration : Z) (i : nat) :
  (window_start segment_duration (S i)
   == window_start segment_duration i + inject_Z segment_duration)%Q.
Proof.
  unfold window_start; rewrite <- inject_Z_plus.
  replace (Z.of_nat (S i) * segment_duration)
    with (Z.of_nat i * segment_duration + segment_duration) by lia.
  reflexivity.
Qed.

(** X10. The windows of a long run tile the recording.  A window is
    attempted exactly when it starts before the end of the recording; an
    attempted window is not empty, ends at or before the end of the
    recording and is at most one window length long; it ends where the
    next attempted window starts, and the last one ends with the
    recording; and every instant of the recording lies in an attempted
    window. *)
Theorem windows_tile_the_recording :
  forall (total_duration : Q),
    let d := choose_segment_duration total_duration in
    let windows :=
      attempted_windows d total_duration
        (estimated_segments total_duration) in
    (forall i, In i windows <-> (window_start d i < total_duration)%Q)
    /\ (forall i, In i windows ->
          (window_start d i < window_end d total_duration i)%Q
          /\ (window_end d total_duration i <= total_duration)%Q
          /\ (window_end d total_duration i
              <= window_start d i + inject_Z d)%Q)
    /\ (forall i, In (S i) windows ->
          window_end d total_duration i = window_start d (S i))
    /\ (forall i, In i windows -> ~ In (S i) windows ->
          (window_end d total_duration i == total_duration)%Q)
    /\ (forall t, (0 <= t)%Q -> (t < total_duration)%Q ->
          exists i,
            In i windows
            /\ (window_start d i <= t)%Q
            /\ (t < window_end d total_duration i)%Q).
Proof.
  intros total_duration d windows.
  pose proof (choose_segment_duration_pos total_duration) as Hd; fold d in Hd.
  assert (Hiff : forall i,
             In i windows <-> (window_start d i < total_duration)%Q).
  { intros i; apply (attempted_iff d total_duration Hd). }
  assert (Hgrow : forall i, (window_start d i < window_start d (S i))%Q).
  { intros i; unfold window_start; rewrite <- Zlt_Qlt; lia. }
  split; [exact Hiff |]; split; [| split; [| split]].
  - intros i Hi; apply Hiff in Hi.
    rewrite window_end_next; repeat split.
    + apply py_min_gt; [apply Hgrow | exact Hi].
    + apply py_min_le_r.
    + rewrite <- window_start_succ; apply py_min_le_l.
  - intros i Hi; apply Hiff in Hi.
    rewrite window_end_next; unfold py_min.
    destruct (Qltb total_duration (window_start d (S i))) eqn:E;
      [| reflexivity].
    apply Qltb_lt in E; exfalso; revert E; apply Qle_not_lt, Qlt_le_weak, Hi.
  - intros i Hi Hnext.
    rewrite window_end_next; unfold py_min.
    destruct (Qltb total_duration (window_start d (S i))) eqn:E;
      [reflexivity |].
    apply Qle_antisym.
    + apply Qnot_lt_le; intros H; apply Qltb_lt in H; congruence.
    + apply Qnot_lt_le; intros H; apply Hnext, Hiff, H.
  - intros t H0 Ht; apply (windows_cover d total_duration Hd t H0 Ht).
Qed.

(** X11. No utterance is lost by the windows: an utterance of the
    recording that starts at or after 0 and before the end of the
    recording, and ends after it starts, is selected for an attempted
    window, the one that contains its start. *)
Theorem every_utterance_reaches_a_window :
  forall (segments : list Segment) (total_duration : Q) (seg : Segment),
    In seg segments ->
    (0 <= seg_start seg)%Q ->
    (seg_start seg < total_duration)%Q ->
    (seg_start seg < seg_end seg)%Q ->
    let d := choose_segment_duration total_duration in
    exists i,
      In i (attempted_windows d total_duration
              (estimated_segments total_duration))
      /\ (window_start d i <= seg_start seg)%Q
      /\ (seg_start seg < window_end d total_duration i)%Q
      /\ In seg (relevant_segments segments (window_start d i)
                   (window_end d total_duration i)).
Proof.
  intros segments total_duration seg Hin H0 Ht Hpos d.
  pose proof (choose_segment_duration_pos total_duration) as Hd; fold d in Hd.
  destruct (windows_cover d total_duration Hd (seg_start seg) H0 Ht)
    as (i & Hi & Hlo & Hhi).
  exists i; repeat split; try assumption.
  unfold relevant_segments; apply filter_In; split; [exact Hin |].
  apply in_window_iff; split; [exact Hhi |].
  eapply Qle_lt_trans; eassumption.
Qed.

(** The recording of 40 s and its utterance from 0 s to 2 s. *)
Lemma every_utterance_reaches_a_window_witness :
  exists i,
    In i (attempted_windows 30 40 (estimated_segments 40))
    /\ In short_utterance
         (relevant_segments [short_utterance] (window_start 30 i)
            (window_end 30 40 i)).
Proof.
  destruct (every_utterance_reaches_a_window [short_utterance] 40
              short_utterance (or_introl eq_refl)
              ltac:(discriminate) ltac:(reflexivity) ltac:(reflexivity))
    as (i & Hi & _ & _ & Hrel).
  exists i; split; [exact Hi | exact Hrel].
Defined.

(** Scenario C of the specification: a recording of 95 minutes has
    windows of 90 s, and 64 of them. *)
Lemma ninety_five_minutes_windows :
  choose_segment_duration 5700 = 90
  /\ length (attempted_windows 90 5700 (estimated_segments 5700)) = 64%nat.
Proof. split; vm_compute; reflexivity. Qed.

(** ** The assembler keeps the synthesized track *)

Lemma apply_pauses_shape (ranges : list (Z * Z)) (a : Audio) :
  exists trail,
    apply_pauses ranges a = silent (leading_silence ranges) ++ a ++ silent trail.
Proof.
  unfold apply_pauses, leading_silence.
  destruct ranges as [| [first_start first_end] rest].
  - exists 0; simpl; rewrite app_nil_r; reflexivity.
  - set (lead := if first_start >? 50 then first_start else 0).
    assert (Hlead : (if first_start >? 50 then silent first_start ++ a else a)
                    = silent lead ++ a).
    { subst lead; destruct (first_start >? 50); reflexivity. }
    rewrite Hlead.
    destruct (_ && _).
    + eexists; rewrite <- app_assoc; reflexivity.
    + exists 0; simpl; rewrite app_nil_r; reflexivity.
Qed.

(** X12. [_apply_prosody_to_audio] only puts silence around the
    synthesized track, and cuts at the end: when the target is not
    positive, or leaves room for the leading silence and the whole
    track, the result is the leading silence, then the synthesized
    track as it was, then whatever follows. *)
Theorem apply_prosody_keeps_the_track :
  forall (synthesized_audio : Audio) (info : ProsodyInfo)
         (probed_ms : option Z),
    let target := target_ms info probed_ms in
    let lead := leading_silence (nonsilent_ranges info) in
    target <= 0 \/ lead + len synthesized_audio <= target ->
    exists tail,
      _apply_prosody_to_audio synthesized_audio (Some info) probed_ms
      = silent lead ++ synthesized_audio ++ tail.
Proof.
  intros a info probed_ms target lead Hroom.
  unfold _apply_prosody_to_audio; fold target.
  destruct (apply_pauses_shape (nonsilent_ranges info) a) as [trail Hshape].
  fold lead in Hshape; rewrite Hshape.
  assert (Hlead : 0 <= lead).
  { subst lead; unfold leading_silence.
    destruct (nonsilent_ranges info) as [| [fs fe] rest]; [lia |].
    destruct (Z.gtb_spec fs 50); lia. }
  unfold force_duration.
  destruct (Z.ltb_spec 0 target) as [Hpos | Hnon].
  2: { eexists; reflexivity. }
  destruct Hroom as [? | Hroom]; [lia |].
  destruct (_ <? target).
  - eexists; rewrite <- !app_assoc; reflexivity.
  - destruct (_ >? target + 50); [| eexists; reflexivity].
    unfold slice_to, slice.
    set (track := silent lead ++ a ++ silent trail).
    rewrite (Z.min_l 0 (len track)) by apply len_nonneg.
    change (Z.to_nat 0) with 0%nat; cbn [skipn].
    rewrite Z.sub_0_r.
    subst track; rewrite app_assoc.
    assert (Hhead : len (silent lead ++ a) = lead + len a)
      by (rewrite len_app, len_silent; lia).
    set (k := Z.to_nat (Z.min target
                          (len ((silent lead ++ a) ++ silent trail)))).
    assert (Hk : (length (silent lead ++ a) <= k)%nat).
    { apply Nat2Z.inj_le.
      change (Z.of_nat (length (silent lead ++ a)))
        with (len (silent lead ++ a)).
      subst k; rewrite (len_app (silent lead ++ a)), Hhead.
      pose proof (len_nonneg (silent trail)); pose proof (len_nonneg a); lia. }
    rewrite firstn_app.
    rewrite firstn_all2 by exact Hk.
    eexists; rewrite <- app_assoc; reflexivity.
Qed.

(** A track of one second, speech intervals from 300 ms on, and a video
    of 2 s: the result is 300 ms of silence, the track, and silence. *)
Lemma apply_prosody_keeps_the_track_witness :
  exists tail,
    _apply_prosody_to_audio (tone 1000)
      (Some {| duration := 2; nonsilent_ranges := [(300, 900); (1200, 1800)] |})
      None
    = silent 300 ++ tone 1000 ++ tail.
Proof.
  apply (apply_prosody_keeps_the_track (tone 1000)
           {| duration := 2; nonsilent_ranges := [(300, 900); (1200, 1800)] |}
           None).
  right; vm_compute; discriminate.
Defined.

(** ** The quiet runs are the quiet samples *)

Lemma in_runs_snoc (runs : list (Z * Z)) (s e j : Z) :
  in_runs (runs ++ [(s, e)]) j <-> in_runs runs j \/ s <= j < e.
Proof.
  unfold in_runs; split.
  - intros (s0 & e0 & Hin & Hj); apply in_app_or in Hin.
    destruct Hin as [Hin | [Heq | []]].
    + left; exists s0, e0; split; assumption.
    + injection Heq as <- <-; right; exact Hj.
  - intros [(s0 & e0 & Hin & Hj) | Hj].
    + exists s0, e0; split; [apply in_or_app; left; exact Hin | exact Hj].
    + exists s, e; split; [apply in_or_app; right; left; reflexivity | exact Hj].
Qed.

Lemma nth_error_snoc_true (done : list bool) (f : bool) (j : nat) :
  nth_error (done ++ [f]) j = Some true
  <-> nth_error done j = Some true \/ (j = length done /\ f = true).
Proof.
  destruct (Nat.lt_ge_cases j (length done)) as [Hlt | Hge].
  - rewrite nth_error_app1 by exact Hlt.
    split; [intros H; left; exact H | intros [H | [H _]]; [exact H | lia]].
  - rewrite nth_error_app2 by exact Hge.
    assert (Hnone : nth_error done j = None) by (apply nth_error_None; exact Hge).
    rewrite Hnone.
    destruct (j - length done)%nat as [| k] eqn:E; simpl.
    + split.
      * intros H; injection H as ->; right; split; [lia | reflexivity].
      * intros [H | [_ ->]]; [discriminate | reflexivity].
    + split.
      * intros H; destruct k; discriminate.
      * intros [H | [H _]]; [discriminate | lia].
Qed.

Lemma scan_step_state (i : Z) (f : bool) (sc : QuietScan) :
  scan_state sc i -> scan_state (scan_step i f sc) (i + 1).
Proof.
  unfold scan_state, scan_step; intros H.
  destruct f, (in_quiet sc) eqn:E;
    cbn [andb negb in_quiet quiet_starts quiet_ends].
  - rewrite E; destruct H as (starts & s & H1 & H2 & H3 & H4).
    exists starts, s; repeat split; try assumption; lia.
  - destruct H as [H1 H2].
    exists (quiet_starts sc), i; repeat split; try assumption; lia.
  - destruct H as (starts & s & H1 & H2 & H3 & H4).
    rewrite H1, length_app, length_app; simpl; split; [lia |].
    rewrite combine_snoc by assumption.
    eapply runs_chain_snoc; [exact H3 | lia | lia].
  - rewrite E; destruct H as [H1 H2]; split; [exact H1 |].
    eapply runs_chain_grow; [exact H2 | lia].
Qed.

Lemma scan_step_runs (i : Z) (f : bool) (sc : QuietScan) :
  scan_state sc i ->
  forall j : Z,
    in_runs (scan_runs (scan_step i f sc) (i + 1)) j
    <-> in_runs (scan_runs sc i) j \/ (f = true /\ j = i).
Proof.
  unfold scan_state, scan_step, scan_runs; intros H j.
  destruct f, (in_quiet sc) eqn:E;
    cbn [andb negb in_quiet quiet_starts quiet_ends]; rewrite ?E.
  - destruct H as (starts & s & H1 & H2 & H3 & H4).
    rewrite H1, !combine_snoc, !in_runs_snoc by assumption.
    split; [intros [? | ?] | intros [[? | ?] | [_ ?]]];
      try (left; left; assumption); try (left; assumption).
    + destruct (Z.eq_dec j i); [right; split; [reflexivity | assumption] |].
      left; right; lia.
    + right; lia.
    + right; lia.
  - destruct H as [H1 H2].
    rewrite combine_snoc, in_runs_snoc by assumption.
    split; [intros [? | ?] | intros [? | [_ ?]]]; try (left; assumption).
    + right; split; [reflexivity | lia].
    + right; lia.
  - split; [intros ?; left; assumption | intros [? | [? _]]];
      [assumption | discriminate].
  - split; [intros ?; left; assumption | intros [? | [? _]]];
      [assumption | discriminate].
Qed.

Lemma scan_quiet_covers (flags : list bool) :
  forall (done : list bool) (sc : QuietScan),
    scan_state sc (Z.of_nat (length done)) ->
    (forall j : nat,
        nth_error done j = Some true
        <-> in_runs (scan_runs sc (Z.of_nat (length done))) (Z.of_nat j)) ->
    forall j : nat,
      nth_error (done ++ flags) j = Some true
      <-> in_runs
            (scan_runs (scan_quiet (Z.of_nat (length done)) flags sc)
               (Z.of_nat (length (done ++ flags))))
            (Z.of_nat j).
Proof.
  induction flags as [| f rest IH]; intros done sc Hstate Hcov j.
  - rewrite app_nil_r; apply Hcov.
  - change (scan_quiet (Z.of_nat (length done)) (f :: rest) sc)
      with (scan_quiet (Z.of_nat (length done) + 1) rest
              (scan_step (Z.of_nat (length done)) f sc)).
    replace (done ++ f :: rest) with ((done ++ [f]) ++ rest)
      by (rewrite <- app_assoc; reflexivity).
    assert (Hlen : Z.of_nat (length (done ++ [f]))
                   = Z.of_nat (length done) + 1)
      by (rewrite length_app; simpl; lia).
    rewrite <- Hlen.
    apply IH.
    + rewrite Hlen; apply scan_step_state, Hstate.
    + intros k; rewrite Hlen, nth_error_snoc_true, scan_step_runs by exact Hstate.
      rewrite Hcov; split; intros [H | [H1 H2]]; try (left; exact H).
      * right; split; [exact H2 | lia].
      * right; split; [lia | exact H1].
Qed.

(** X13. The runs the scan in [_add_pauses_between_words] returns are
    exactly the quiet samples: a sample is flagged quiet if and only if
    its index lies in one of the runs, from the start of the run up to
    its end, the end not counted. *)
Theorem find_quiet_runs_are_the_quiet_samples :
  forall (flags : list bool) (j : nat),
    nth_error flags j = Some true
    <-> in_runs (List.combine (fst (find_quiet flags)) (snd (find_quiet flags)))
          (Z.of_nat j).
Proof.
  intros flags j.
  pose proof (scan_quiet_covers flags []
                {| quiet_starts := []; quiet_ends := []; in_quiet := false |})
    as H.
  cbn [length app] in H; change (Z.of_nat 0) with 0 in H.
  apply H.
  - split; simpl; [reflexivity | lia].
  - intros k; split.
    + destruct k; discriminate.
    + intros (s & e & [] & _).
Qed.

(** ** The chunks of the direct translation *)

Lemma firstn_add_skipn {A : Type} (p q : nat) :
  forall l : list A, firstn p l ++ firstn q (skipn p l) = firstn (p + q) l.
Proof.
  induction p as [| p IH]; intros l; [reflexivity |].
  destruct l as [| x l]; simpl; [rewrite firstn_nil; reflexivity |].
  rewrite IH; reflexivity.
Qed.

Lemma slice_app (a : Audio) (s k e : Z) :
  0 <= s <= k -> k <= e -> slice a s k ++ slice a k e = slice a s e.
Proof.
  intros Hs He; unfold slice.
  set (n := len a).
  assert (Hn : 0 <= n) by apply len_nonneg.
  replace (skipn (Z.to_nat (Z.min k n)) a)
    with (skipn (Z.to_nat (Z.min k n - Z.min s n))
            (skipn (Z.to_nat (Z.min s n)) a)).
  2: { rewrite skipn_skipn; f_equal; lia. }
  rewrite firstn_add_skipn; f_equal; lia.
Qed.

Lemma slice_whole (a : Audio) (e : Z) : len a <= e -> slice a 0 e = a.
Proof.
  intros H; unfold slice.
  rewrite (Z.min_l 0) by apply len_nonneg.
  rewrite Z.min_r by exact H.
  change (Z.to_nat 0) with 0%nat; cbn [skipn].
  rewrite Z.sub_0_r; unfold len; rewrite Nat2Z.id; apply firstn_all.
Qed.

Lemma chunks_concat (samples : list Z) (c : Z) :
  0 < c ->
  forall (j a : nat),
    concat (map (fun i => slice samples i (i + c))
              (map (fun k => Z.of_nat k * c) (seq a j)))
    = slice samples (Z.of_nat a * c) (Z.of_nat (a + j) * c).
Proof.
  intros Hc; induction j as [| j IH]; intros a.
  - simpl; rewrite Nat.add_0_r; unfold slice.
    rewrite Z.sub_diag; reflexivity.
  - cbn [seq map concat]; rewrite IH.
    replace (Z.of_nat a * c + c) with (Z.of_nat (S a) * c) by lia.
    rewrite slice_app by nia.
    f_equal; lia.
Qed.

Lemma filter_all {A : Type} (P : A -> bool) (l : list A) :
  Forall (fun x => P x = true) l -> filter P l = l.
Proof.
  induction 1 as [| x l Hx _ IH]; simpl; [reflexivity |].
  rewrite Hx, IH; reflexivity.
Qed.

Lemma len_slice_whole (a : Audio) (s e : Z) : len (slice a s e) <= len a.
Proof.
  unfold slice, len; apply Nat2Z.inj_le.
  rewrite length_firstn, length_skipn; lia.
Qed.

Lemma kept_chunks_rest (samples : list Z) :
  exists rest,
    samples = concat (kept_chunks samples) ++ rest /\ len rest < 1000.
Proof.
  set (c := translation_chunk).
  assert (Hc : 0 < c) by reflexivity.
  set (n := len samples).
  assert (Hn : 0 <= n) by apply len_nonneg.
  set (m := Z.to_nat ((n + c - 1) / c)).
  set (chunk := fun k : nat =>
                  slice samples (Z.of_nat k * c) (Z.of_nat k * c + c)).
  assert (Hchunks : translation_chunks samples = map chunk (seq 0 m)).
  { unfold translation_chunks, range_step; fold c n m.
    rewrite map_map; reflexivity. }
  assert (Hm : (Z.of_nat m - 1) * c < n \/ (m = 0%nat /\ n = 0)).
  { subst m.
    pose proof (Z.div_mod (n + c - 1) c ltac:(lia)) as Hd.
    pose proof (Z.mod_pos_bound (n + c - 1) c Hc) as Hb.
    assert (0 <= (n + c - 1) / c) by (apply Z.div_pos; lia).
    rewrite Z2Nat.id by assumption.
    destruct (Z.eq_dec n 0) as [-> | Hne]; [| left; nia].
    right; split; [| reflexivity].
    rewrite Z.div_small by lia; reflexivity. }
  assert (Hmn : n <= Z.of_nat m * c).
  { subst m.
    pose proof (Z.div_mod (n + c - 1) c ltac:(lia)) as Hd.
    pose proof (Z.mod_pos_bound (n + c - 1) c Hc) as Hb.
    assert (0 <= (n + c - 1) / c) by (apply Z.div_pos; lia).
    rewrite Z2Nat.id by assumption; nia. }
  assert (Hall : concat (map chunk (seq 0 m)) = samples).
  { pose proof (chunks_concat samples c Hc m 0%nat) as H.
    rewrite map_map in H; fold chunk in H; rewrite H.
    change (Z.of_nat 0 * c) with 0.
    apply slice_whole; fold n; rewrite Nat.add_0_l; exact Hmn. }
  unfold kept_chunks; rewrite Hchunks.
  destruct m as [| m'] eqn:Em.
  - exists []; simpl in *; split; [| reflexivity].
    rewrite <- Hall; reflexivity.
  - rewrite seq_S, map_app, filter_app; cbn [map filter Nat.add].
    assert (Hfull : Forall (fun x => negb (len x <? 1000) = true)
                      (map chunk (seq 0 m'))).
    { apply Forall_forall; intros x Hx.
      apply in_map_iff in Hx; destruct Hx as (k & <- & Hk).
      apply in_seq in Hk.
      subst chunk; cbv beta; rewrite len_slice by lia; fold n.
      assert (Hc1000 : 1000 <= c) by (vm_compute; discriminate).
      destruct (Z.ltb_spec
                  (Z.max 0 (Z.min (Z.of_nat k * c + c) n
                            - Z.min (Z.of_nat k * c) n)) 1000);
        [| reflexivity].
      destruct Hm as [Hm | [Hm _]]; [nia | discriminate]. }
    rewrite (filter_all _ _ Hfull).
    rewrite seq_S, map_app, concat_app in Hall; cbn [map concat] in Hall.
    rewrite app_nil_r in Hall.
    destruct (Z.ltb_spec (len (chunk m')) 1000) as [Hshort | Hkeep];
      cbn [negb].
    + exists (chunk m'); split; [| exact Hshort].
      rewrite app_nil_r; symmetry; exact Hall.
    + exists []; split; [| reflexivity].
      rewrite app_nil_r, concat_app; cbn [concat].
      rewrite app_nil_r; symmetry; exact Hall.
Qed.

Lemma kept_chunks_none (samples : list Z) :
  kept_chunks samples = [] <-> len samples < 1000.
Proof.
  split.
  - intros Hnone.
    destruct (kept_chunks_rest samples) as (rest & Hsplit & Hrest).
    rewrite Hnone in Hsplit; rewrite Hsplit; exact Hrest.
  - intros Hshort; unfold kept_chunks, translation_chunks.
    induction (range_step (len samples) translation_chunk) as [| i later IH];
      [reflexivity |].
    cbn [map filter]; rewrite IH.
    destruct (Z.ltb_spec
                (len (slice samples i (i + translation_chunk))) 1000);
      [reflexivity |].
    pose proof (len_slice_whole samples i (i + translation_chunk)); lia.
Qed.

Lemma translate_chunks_spec (generate : list Z -> option (list Z)) :
  forall chunks arrays,
    translate_chunks generate chunks = Some arrays
    <-> Forall2 (fun segment segment_array =>
                   generate segment = Some segment_array)
          (filter (fun segment => negb (len segment <? 1000)) chunks)
          arrays.
Proof.
  induction chunks as [| segment later IH]; intros arrays; cbn [translate_chunks filter].
  - split.
    + intros H; injection H as <-; constructor.
    + intros H; inversion H; reflexivity.
  - destruct (len segment <? 1000); cbn [negb]; [apply IH |].
    split.
    + destruct (generate segment) as [a |] eqn:Eg; [| discriminate].
      destruct (translate_chunks generate later) as [t |] eqn:Et;
        [| discriminate].
      intros H; injection H as <-.
      constructor; [exact Eg | apply IH; reflexivity].
    + intros H; inversion H as [| ? a ? t Hg Ht]; subst.
      rewrite Hg.
      apply IH in Ht; rewrite Ht; reflexivity.
Qed.

(** X14. [translate_audio] hands the samples to the model in chunks, in
    order and without a gap: the chunks it does not skip, one after the
    other, are the track without a rest at its end of fewer than 1000
    samples.  It returns samples exactly when the track has at least
    1000 samples and the model answers on every such chunk, and they are
    then the answers one after the other. *)
Theorem translate_audio_drops_only_a_short_rest :
  forall (generate : list Z -> option (list Z)) (samples : list Z),
    (exists rest,
        samples = concat (kept_chunks samples) ++ rest /\ len rest < 1000)
    /\ (forall out,
          translate_audio generate samples = Some out
          <-> 1000 <= len samples
              /\ exists arrays,
                   Forall2 (fun segment segment_array =>
                              generate segment = Some segment_array)
                     (kept_chunks samples) arrays
                   /\ out = concat arrays).
Proof.
  intros generate samples; split; [apply kept_chunks_rest |].
  intros out; unfold translate_audio.
  pose proof (translate_chunks_spec generate (translation_chunks samples))
    as Hspec; fold (kept_chunks samples) in Hspec.
  pose proof (kept_chunks_none samples) as Hnone.
  split.
  - destruct (translate_chunks generate (translation_chunks samples))
      as [arrays |] eqn:Et; [| discriminate].
    pose proof (proj1 (Hspec arrays) eq_refl) as Hall.
    destruct arrays as [| a arrays]; [discriminate |].
    intros H; injection H as <-.
    split; [| exists (a :: arrays); split; [exact Hall | reflexivity]].
    destruct (Z.lt_ge_cases (len samples) 1000) as [Hlt | Hge];
      [| exact Hge].
    apply Hnone in Hlt; rewrite Hlt in Hall; inversion Hall.
  - intros (Hge & arrays & Hall & ->).
    rewrite (proj2 (Hspec arrays) Hall).
    destruct arrays as [| a arrays]; [| reflexivity].
    inversion Hall as [Hk |]; symmetry in Hk.
    apply Hnone in Hk; lia.
Qed.

(** ** A recording without recognised speech *)

Lemma py_int_comp (x y : Q) : (x == y)%Q -> py_int x = py_int y.
Proof.
  intros H; apply Z.le_antisymm; apply py_int_le; rewrite H; apply Qle_refl.
Qed.

Lemma py_int_inject (k : Z) : py_int (inject_Z k) = k.
Proof.
  unfold py_int; destruct (Qle_bool 0 (inject_Z k));
    [apply Qfloor_Z | apply Qceiling_Z].
Qed.

Lemma Qfloor_unique (x : Q) (z : Z) :
  (inject_Z z <= x)%Q -> (x < inject_Z (z + 1))%Q -> Qfloor x = z.
Proof.
  intros Hlo Hhi.
  assert (H1 : z <= Qfloor x).
  { rewrite <- (Qfloor_Z z); apply Qfloor_resp_le, Hlo. }
  assert (H2 : Qfloor x < z + 1).
  { rewrite Zlt_Qlt; eapply Qle_lt_trans; [apply Qfloor_le | exact Hhi]. }
  lia.
Qed.

Lemma py_int_nonneg (x : Q) : (0 <= x)%Q -> py_int x = Qfloor x.
Proof.
  intros H; unfold py_int; apply Qle_bool_iff in H; rewrite H; reflexivity.
Qed.

Lemma py_int_sub_inject (x : Q) (k : Z) :
  0 <= k -> (inject_Z k <= x)%Q -> py_int (x - inject_Z k) = py_int x - k.
Proof.
  intros Hk Hx.
  assert (H0 : (0 <= inject_Z k)%Q)
    by (change 0%Q with (inject_Z 0); rewrite <- Zle_Qle; exact Hk).
  rewrite (py_int_nonneg x) by (eapply Qle_trans; eassumption).
  rewrite py_int_nonneg.
  2: { apply (Qplus_le_l _ _ (inject_Z k)); ring_simplify; exact Hx. }
  apply Qfloor_unique.
  - unfold Zminus; rewrite inject_Z_plus, inject_Z_opp.
    apply Qplus_le_l, Qfloor_le.
  - replace (Qfloor x - k + 1) with (Qfloor x + 1 + - k) by lia.
    rewrite inject_Z_plus, inject_Z_opp.
    apply Qplus_lt_l, Qlt_floor.
Qed.

Lemma silent_app (a b : Z) :
  0 <= a -> 0 <= b -> silent a ++ silent b = silent (a + b).
Proof.
  intros Ha Hb; unfold silent.
  rewrite Z2Nat.inj_add by assumption.
  symmetry; apply repeat_app.
Qed.

Lemma to_ms_window_start (segment_duration : Z) (i : nat) :
  to_ms (window_start segment_duration i)
  = Z.of_nat i * segment_duration * 1000.
Proof.
  unfold to_ms, window_start.
  rewrite <- (py_int_inject (Z.of_nat i * segment_duration * 1000)).
  apply py_int_comp; rewrite inject_Z_mult; reflexivity.
Qed.

Lemma py_min_mono (a a' b : Q) : (a <= a')%Q -> (py_min a b <= py_min a' b)%Q.
Proof.
  intros H; unfold py_min.
  destruct (Qltb b a) eqn:E; destruct (Qltb b a') eqn:E'.
  - apply Qle_refl.
  - apply Qltb_lt in E.
    assert (Hf : Qltb b a' = true)
      by (apply Qltb_lt; eapply Qlt_le_trans; eassumption).
    congruence.
  - apply Qnot_lt_le; intros Hlt; apply Qltb_lt in Hlt; congruence.
  - exact H.
Qed.

Lemma window_boundary_mono (d : Z) (total : Q) (i j : nat) :
  0 <= d -> (i <= j)%nat ->
  window_boundary_ms d total i <= window_boundary_ms d total j.
Proof.
  intros Hd Hij; unfold window_boundary_ms.
  apply to_ms_le, py_min_mono, window_start_le; assumption.
Qed.

Lemma window_boundary_after_end (d : Z) (total : Q) (i : nat) :
  (total <= window_start d i)%Q ->
  window_boundary_ms d total i = to_ms total.
Proof.
  intros H; unfold window_boundary_ms.
  apply Z.le_antisymm; apply to_ms_le.
  - apply py_min_le_r.
  - unfold py_min; destruct (Qltb total (window_start d i));
      [apply Qle_refl | exact H].
Qed.

Lemma window_boundary_before_end (d : Z) (total : Q) (i : nat) :
  (window_start d i < total)%Q ->
  window_boundary_ms d total i = Z.of_nat i * d * 1000.
Proof.
  intros H; unfold window_boundary_ms, py_min.
  destruct (Qltb total (window_start d i)) eqn:E.
  - apply Qltb_lt in E; exfalso.
    apply (Qlt_irrefl total); eapply Qlt_trans; eassumption.
  - apply to_ms_window_start.
Qed.

(** A window of a recording without utterances leaves silence from its
    start to its end, or nothing when it is shorter than a millisecond. *)
Lemma window_without_speech
    (translate : string -> string)
    (synthesize : nat -> nat -> string -> SynthResult)
    (audio : Audio) (d : Z) (total : Q) (i : nat) :
  0 < d ->
  to_ms total <= len audio ->
  (window_start d i < total)%Q ->
  concat (files_of
            (fun i => fst (process_window translate synthesize audio []
                             d total i)) [i])
  = silent (window_boundary_ms d total (S i) - window_boundary_ms d total i).
Proof.
  intros Hd Hlen Hact.
  rewrite (window_boundary_before_end d total i Hact).
  assert (Hend : window_boundary_ms d total (S i)
                 = to_ms (window_end d total i)).
  { unfold window_boundary_ms; rewrite window_end_next; reflexivity. }
  rewrite Hend.
  assert (Hstart : to_ms (window_start d i) = Z.of_nat i * d * 1000)
    by apply to_ms_window_start.
  assert (Hlt : (window_start d i < window_end d total i)%Q).
  { rewrite window_end_next; apply py_min_gt; [| exact Hact].
    rewrite window_start_succ.
    rewrite <- (Qplus_0_r (window_start d i)) at 1.
    apply Qplus_lt_r.
    change 0%Q with (inject_Z 0); rewrite <- Zlt_Qlt; exact Hd. }
  assert (Hle_total : to_ms (window_end d total i) <= to_ms total).
  { apply to_ms_le; unfold window_end; apply py_min_le_r. }
  assert (Hdur : py_int ((window_end d total i - window_start d i) * 1000)
                 = to_ms (window_end d total i) - Z.of_nat i * d * 1000).
  { unfold to_ms.
    rewrite <- py_int_sub_inject.
    - apply py_int_comp; unfold window_start.
      rewrite (inject_Z_mult _ 1000); ring.
    - nia.
    - unfold window_start in Hlt.
      rewrite inject_Z_mult.
      apply Qmult_le_compat_r; [apply Qlt_le_weak, Hlt | discriminate]. }
  unfold files_of, process_window, _process_segment_with_correct_timing,
    relevant_segments; cbn [flat_map filter]; rewrite app_nil_r.
  unfold _extract_audio_segment; cbv zeta; rewrite Hstart.
  set (s := Z.of_nat i * d * 1000) in *.
  set (e := to_ms (window_end d total i)) in *.
  assert (Hs : 0 <= s) by (subst s; nia).
  destruct (Z.eqb_spec (len audio) 0) as [H0 | H0].
  { cbn [fst concat]; symmetry; apply silent_nonpos; lia. }
  destruct (Z.geb_spec s (len audio)) as [H1 | H1].
  { cbn [fst concat]; symmetry; apply silent_nonpos; lia. }
  destruct (Z.eqb_spec
              (len (slice audio s
                      (if e >? len audio then len audio else e))) 0)
    as [H2 | H2].
  - cbn [fst concat]; symmetry; apply silent_nonpos.
    rewrite len_slice in H2 by exact Hs.
    destruct (Z.gtb_spec e (len audio)); lia.
  - cbn [fst concat]; rewrite app_nil_r, Hdur; reflexivity.
Qed.

Lemma windows_without_speech
    (translate : string -> string)
    (synthesize : nat -> nat -> string -> SynthResult)
    (audio : Audio) (d : Z) (total : Q) :
  0 < d ->
  to_ms total <= len audio ->
  forall n a,
    concat (files_of
              (fun i => fst (process_window translate synthesize audio []
                               d total i))
              (filter (fun i => negb (Qle_bool total (window_start d i)))
                 (seq a n)))
    = silent (window_boundary_ms d total (a + n)
              - window_boundary_ms d total a).
Proof.
  intros Hd Hlen; induction n as [| n IH]; intros a.
  - rewrite Nat.add_0_r, Z.sub_diag; reflexivity.
  - cbn [seq filter].
    pose proof (window_boundary_mono d total a (S a) ltac:(lia) ltac:(lia))
      as Hm1.
    pose proof (window_boundary_mono d total (S a) (S a + n)
                  ltac:(lia) ltac:(lia)) as Hm2.
    replace (a + S n)%nat with (S a + n)%nat by lia.
    destruct (Qle_bool total (window_start d a)) eqn:E; cbn [negb].
    + rewrite IH.
      apply Qle_bool_iff in E.
      rewrite (window_boundary_after_end d total a E).
      rewrite (window_boundary_after_end d total (S a)); [reflexivity |].
      eapply Qle_trans; [exact E | apply window_start_le; lia].
    + assert (Hact : (window_start d a < total)%Q).
      { apply Qnot_le_lt; intros Hc; apply Qle_bool_iff in Hc; congruence. }
      pose proof (window_without_speech translate synthesize audio d total a
                    Hd Hlen Hact) as Hone.
      unfold files_of in *; cbn [flat_map] in *.
      rewrite app_nil_r in Hone.
      rewrite concat_app, Hone, IH, silent_app by lia.
      f_equal; lia.
Qed.

(** With exact timestamps the joined windows are silence for the whole
    duration. *)
Lemma joined_windows_without_speech
    (translate : string -> string)
    (synthesize : nat -> nat -> string -> SynthResult)
    (inp : RunInput) (audio : Audio) :
  all_segments inp = [] ->
  to_ms (total_duration_of inp) <= len audio ->
  concat (fst (run_windows translate synthesize inp audio))
  = silent (to_ms (total_duration_of inp)).
Proof.
  intros Hnone Hlen.
  set (total := total_duration_of inp) in *.
  set (total_ms := to_ms total).
  set (d := choose_segment_duration total).
  assert (Hd : 0 < d) by apply choose_segment_duration_pos.
  rewrite run_windows_outcomes; cbv zeta; cbn [fst].
  fold total; fold d; rewrite Hnone.
  unfold attempted_windows.
  rewrite (windows_without_speech translate synthesize audio d total
             Hd Hlen).
  rewrite Nat.add_0_l.
  set (n := estimated_segments total).
  destruct (Qlt_le_dec total 0) as [Hneg | Hpos].
  - assert (H0 : total_ms <= 0).
    { subst total_ms; change 0 with (to_ms 0).
      apply to_ms_le, Qlt_le_weak, Hneg. }
    rewrite !window_boundary_after_end.
    + rewrite Z.sub_diag, (silent_nonpos total_ms) by exact H0.
      reflexivity.
    + apply Qlt_le_weak; eapply Qlt_le_trans; [exact Hneg |].
      unfold window_start; change 0%Q with (inject_Z 0).
      rewrite <- Zle_Qle; nia.
    + apply Qlt_le_weak; eapply Qlt_le_trans; [exact Hneg |].
      unfold window_start; change 0%Q with (inject_Z 0).
      rewrite <- Zle_Qle; nia.
  - assert (Hn : (total <= window_start d n)%Q).
    { apply Qnot_lt_le; intros Hlt.
      pose proof (window_before_end_is_counted d total Hd n Hlt) as Hc.
      subst n; unfold estimated_segments in Hc; fold d in Hc; lia. }
    rewrite (window_boundary_after_end d total n Hn).
    destruct (Qle_bool total (window_start d 0)) eqn:E.
    + apply Qle_bool_iff in E.
      rewrite (window_boundary_after_end d total 0%nat E), Z.sub_diag.
      symmetry; apply silent_nonpos.
      subst total_ms; change 0 with (to_ms 0).
      apply to_ms_le; exact E.
    + assert (Hact : (window_start d 0 < total)%Q).
      { apply Qnot_le_lt; intros Hc; apply Qle_bool_iff in Hc;
          congruence. }
      rewrite (window_boundary_before_end d total 0%nat Hact).
      f_equal; lia.
Qed.

Lemma window_files_without_speech
    (translate : string -> string)
    (synthesize : nat -> nat -> string -> SynthResult)
    (inp : RunInput) (audio : Audio) (file : Audio) :
  all_segments inp = [] ->
  In file (fst (run_windows translate synthesize inp audio)) ->
  exists duration, file = silent duration.
Proof.
  intros Hnone; rewrite run_windows_outcomes; cbv zeta; cbn [fst].
  rewrite Hnone; unfold files_of; intros Hin.
  apply in_flat_map in Hin; destruct Hin as (i & _ & Hin).
  unfold process_window, _process_segment_with_correct_timing,
    relevant_segments in Hin; cbn [filter] in Hin.
  destruct (_extract_audio_segment _ _ _); cbn [fst] in Hin.
  - destruct Hin as [<- | []]; eexists; reflexivity.
  - destruct Hin.
Qed.

(** X15. A recording in which no utterance is recognised, and whose
    track is at least as long as its analysed duration, gives windows
    of silence only.  Joined, they are silent throughout and not longer
    than the analysed duration of the recording, in milliseconds; and
    when that duration is a millisecond or more, the concatenation
    succeeds. *)
Theorem recording_without_speech_gives_silence :
  forall (translate : string -> string)
         (synthesize : nat -> nat -> string -> SynthResult)
         (inp : RunInput) (audio : Audio),
    all_segments inp = [] ->
    to_ms (total_duration_of inp) <= len audio ->
    let total_ms := to_ms (total_duration_of inp) in
    let files := fst (run_windows translate synthesize inp audio) in
    Forall (fun file => exists duration, file = silent duration) files
    /\ Forall (fun frame => frame = 0) (concat files)
    /\ len (concat files) <= Z.max 0 total_ms
    /\ (0 < total_ms -> _combine_segments_simple files = Some (concat files)).
Proof.
  intros translate synthesize inp audio Hnone Hlen total_ms files.
  assert (Hfiles : concat files = silent total_ms)
    by (apply joined_windows_without_speech; assumption).
  split; [| split; [| split]].
  - apply Forall_forall; intros file Hin.
    apply (window_files_without_speech translate synthesize inp audio);
      assumption.
  - rewrite Hfiles; unfold silent; apply Forall_forall.
    intros frame Hin; apply repeat_spec in Hin; exact Hin.
  - rewrite Hfiles, len_silent; lia.
  - intros Hpos; rewrite combine_segments_simple_concat, Hfiles, len_silent.
    destruct (Z.eqb_spec (Z.max 0 total_ms) 0); [lia | reflexivity].
Qed.

(** The recording of 70 s without speech: every frame of the joined
    windows is silent. *)
Lemma recording_without_speech_gives_silence_witness :
  Forall (fun frame => frame = 0)
    (concat (fst (run_windows (translate_to "a")
                    (fun _ => synthesize_always NoResult)
                    run_without_speech (tone 70000)))).
Proof.
  apply (recording_without_speech_gives_silence (translate_to "a")
           (fun _ => synthesize_always NoResult) run_without_speech
           (tone 70000)).
  - reflexivity.
  - vm_compute; discriminate.
Defined.
